(** * gohlslib muxer examples: UDP MPEG-TS ingest, master manifest, HTTP dispatch

    Shallow embedding of the three example programs of the repository
    (the multi-feed program, the single-feed program and the multi-feed
    program with the HTTP variant registry) and the properties of their
    feed-list parser, manifest builder, PTS callback, read loop and
    HTTP handler. *)

From Stdlib Require Import ZArith Lia Ascii String.
From stdpp Require Import base list strings gmap.

Local Open Scope Z_scope.

(** ** Go's [strings] and [fmt] functions at the arguments the programs use *)

Module GoStrings.

(** [strings.Split(s, sep)] for a one-byte separator: every call site passes
    one of the literals [","], ["|"] and ["x"].  The result always has one
    more element than [s] has separator bytes; the empty string splits into
    one empty piece. *)
Fixpoint Split (s : string) (sep : ascii) : list string :=
  match s with
  | EmptyString => [EmptyString]
  | String c s' =>
      if Ascii.eqb c sep then EmptyString :: Split s' sep
      else match Split s' sep with
           | p :: ps => String c p :: ps
           | [] => [String c EmptyString]
           end
  end.

(** [strings.HasPrefix]. *)
Fixpoint HasPrefix (s prefix : string) : bool :=
  match prefix, s with
  | EmptyString, _ => true
  | String _ _, EmptyString => false
  | String a p, String b s' => Ascii.eqb a b && HasPrefix s' p
  end.

(** [strings.Contains(s, substr)]: [substr] occurs at some offset of [s]
    (the empty string occurs in every string). *)
Fixpoint Contains (s substr : string) : bool :=
  HasPrefix s substr ||
  match s with
  | EmptyString => false
  | String _ s' => Contains s' substr
  end.

(** [strings.Join(elems, sep)] for a one-byte separator. *)
Fixpoint Join (elems : list string) (sep : ascii) : string :=
  match elems with
  | [] => EmptyString
  | [e] => e
  | e :: es => e +:+ String sep (Join es sep)
  end.

(** Number of occurrences of a byte. *)
Fixpoint count_byte (c : ascii) (s : string) : nat :=
  match s with
  | EmptyString => O
  | String a s' => (if Ascii.eqb a c then 1 else 0)%nat + count_byte c s'
  end.

(** [strings.Count(s, substr)] for a non-empty [substr] that cannot overlap
    itself (used on the tag ["#EXT-X-STREAM-INF"] only): the number of
    offsets at which [substr] occurs. *)
Fixpoint count_occ_at (s substr : string) : nat :=
  match s with
  | EmptyString => O
  | String _ s' =>
      (if HasPrefix s substr then 1 else 0)%nat + count_occ_at s' substr
  end.

End GoStrings.

Import GoStrings.

(** The bytes that cannot be written inside a literal. *)
Definition nl : string := String "010"%char EmptyString.
Definition dquote : string := String "034"%char EmptyString.

(** ** Feed descriptors and the feed-list parser *)

Record UDPAddressInfo := {
  Address : string;
  Name : string;
  Resolution : string;
  Bandwidth : string
}.

Definition pipe : ascii := "|"%char.
Definition comma : ascii := ","%char.
Definition letter_x : ascii := "x"%char.

(** State of the parsing loop: the slice being appended to and what was
    written to standard output (one element per [fmt.Printf] call). *)
Record parse_state := {
  result : list UDPAddressInfo;
  stdout : list string
}.

(** [fmt.Printf("Invalid UDP address format: '%s'\n", pair)] *)
Definition invalid_msg (pair : string) : string :=
  "Invalid UDP address format: '" +:+ pair +:+ "'" +:+ nl.

(** Body of [for _, pair := range pairs]. *)
Definition parse_pair (st : parse_state) (pair : string) : parse_state :=
  match Split pair pipe with
  | [p0; p1; p2; p3] =>
      {| result := result st ++
                   [{| Address := p0; Name := p1; Resolution := p2; Bandwidth := p3 |}];
         stdout := stdout st |}
  | _ =>
      {| result := result st;
         stdout := stdout st ++ [invalid_msg pair] |}
  end.

(** [parseUDPAddresses], identical in the three programs. *)
Definition parseUDPAddresses (input : string) : parse_state :=
  let st0 := {| result := []; stdout := [] |} in
  if String.eqb input EmptyString then st0
  else fold_left parse_pair (Split input comma) st0.

(** The record format named by the [-udps] flag's usage text,
    ['address|name|resolution|bandwidth,address|name|resolution|bandwidth,...']. *)
Definition format_record (r : UDPAddressInfo) : string :=
  Join [Address r; Name r; Resolution r; Bandwidth r] pipe.

Definition format_records (rs : list UDPAddressInfo) : string :=
  Join (map format_record rs) comma.

(** A pair is accepted when it has exactly four pipe-delimited fields. *)
Definition four_fields (pair : string) : bool :=
  Nat.eqb (length (Split pair pipe)) 4.

(** ** The manifest builder *)

(** [GenerateM3U8String]: the three programs carry the same function and
    differ only in the name of the variant playlist, [video_<tag>p.m3u8] in
    the multi-feed and single-feed programs and [stream_<tag>p.m3u8] in the
    program with the HTTP registry; [playlist] is that prefix.  The
    [strings.Builder] is the accumulated text. *)
Definition GenerateM3U8String_with (playlist : string)
    (bandwidth resolution : string) : string :=
  let sb := EmptyString in
  let codecs := "avc1.42c01f" in
  let frameRate := "24.000" in
  let resSplit := Split resolution letter_x in
  match resSplit with
  | [_; resTag] =>
      let sb := sb +:+
        ("#EXT-X-STREAM-INF:BANDWIDTH=" +:+ bandwidth +:+
         ",AVERAGE-BANDWIDTH=" +:+ bandwidth +:+
         ",CODECS=" +:+ dquote +:+ codecs +:+ dquote +:+
         ",RESOLUTION=" +:+ resolution +:+
         ",FRAME-RATE=" +:+ frameRate +:+ nl) in
      let sb := sb +:+ (playlist +:+ resTag +:+ "p.m3u8" +:+ nl +:+ nl) in
      sb
  | _ => sb
  end.

Definition header : string :=
  "#EXTM3U" +:+ nl +:+ "#EXT-X-VERSION:9" +:+ nl +:+
  "#EXT-X-INDEPENDENT-SEGMENTS" +:+ nl +:+ nl.

(** A resolution the builder accepts: [len(strings.Split(resolution, "x")) == 2]. *)
Definition valid_resolution (resolution : string) : bool :=
  Nat.eqb (length (Split resolution letter_x)) 2.

(** The text after the one [x] of an accepted resolution ([resSplit[1]]). *)
Definition height_tag (resolution : string) : string :=
  match Split resolution letter_x with
  | [_; resTag] => resTag
  | _ => EmptyString
  end.

(** One stream-info block, written out. *)
Definition stream_inf_block (playlist bandwidth resolution : string) : string :=
  "#EXT-X-STREAM-INF:BANDWIDTH=" +:+ bandwidth +:+
  ",AVERAGE-BANDWIDTH=" +:+ bandwidth +:+
  ",CODECS=" +:+ dquote +:+ "avc1.42c01f" +:+ dquote +:+
  ",RESOLUTION=" +:+ resolution +:+
  ",FRAME-RATE=24.000" +:+ nl +:+
  playlist +:+ height_tag resolution +:+ "p.m3u8" +:+ nl +:+ nl.

(** Concatenation of a list of texts. *)
Definition concat_strings (l : list string) : string :=
  fold_right String.append EmptyString l.

(** The blocks of the descriptors with an accepted resolution, in order. *)
Definition blocks_of (playlist : string) (infos : list UDPAddressInfo) : string :=
  concat_strings
    (map (fun info => stream_inf_block playlist (Bandwidth info) (Resolution info))
         (filter (fun info => valid_resolution (Resolution info) = true) infos)).

(** ** Start-up of the programs *)

(** A computation that may [panic]. *)
Inductive exec (A : Type) : Type :=
  | Done (a : A)
  | Panic.
Arguments Done {A} a.
Arguments Panic {A}.

(** What start-up depends on besides the flags: whether [mux.Start()] of the
    muxer created in [main] succeeds, and whether
    [net.ListenPacket("udp", address)] succeeds given the addresses this
    process has bound so far.  The functions [main] below follow the
    goroutine of [main] only; the goroutines it launches are followed by
    [step] further down. *)
Record Env := {
  mux_start : bool;
  listen_packet : list string -> string -> bool
}.

Record Muxer := {
  Directory : string;
  SegmentCount : Z;
  Prefix : string
}.

(** State of [for _, info := range udpInfo]: the manifest text accumulated so
    far, the addresses bound, the names of the feeds whose goroutine was
    launched, and the registry (used by the third program only). *)
Record loop_state := {
  m3u8String : string;
  bound : list string;
  launched : list string;
  muxMap : gmap string Muxer
}.

(** *** Set-up of a feed's reader *)

(** The codec of a track the reader discovers; [CodecOther] is any codec the
    programs do not test for. *)
Inductive codec : Type :=
  | CodecH264
  | CodecMPEG4Audio
  | CodecOther.

(** A callback registered on the reader, with the index of its track in
    [r.Tracks()]. *)
Inductive callback : Type :=
  | OnDataH26x (track : nat)
  | OnDataMPEG4Audio (track : nat).

(** What [setupMPEGTSReader] finds: whether [mux.Start()] and
    [mpegts.NewReader(...)] succeed, and the tracks of the stream. *)
Record feed_env := {
  start_ok : bool;
  reader_ok : bool;
  tracks : list codec
}.

(** How [setupMPEGTSReader] goes on after its set-up: it enters the read loop
    with the callbacks it registered, or panics with an error value, or
    panics with the text [H264 track not found]. *)
Inductive setup_result : Type :=
  | Ingesting (callbacks : list callback)
  | PanicErr
  | PanicNoH264.

(** [for _, track := range r.Tracks()] of the two multi-feed programs: both
    type tests are made on every track; [i] is the index of the first track
    of [trs]. *)
Fixpoint visit_tracks (i : nat) (trs : list codec) (found : bool)
    (cbs : list callback) : bool * list callback :=
  match trs with
  | [] => (found, cbs)
  | track :: rest =>
      let '(found, cbs) :=
        match track with
        | CodecH264 => (true, cbs ++ [OnDataH26x i])
        | _ => (found, cbs)
        end in
      let cbs :=
        match track with
        | CodecMPEG4Audio => cbs ++ [OnDataMPEG4Audio i]
        | _ => cbs
        end in
      visit_tracks (S i) rest found cbs
  end.

(** The same loop in the single-feed program: only the H264 test, and
    [break] at the first track that passes it. *)
Fixpoint visit_tracks_break (i : nat) (trs : list codec) (found : bool)
    (cbs : list callback) : bool * list callback :=
  match trs with
  | [] => (found, cbs)
  | track :: rest =>
      match track with
      | CodecH264 => (true, cbs ++ [OnDataH26x i])
      | _ => visit_tracks_break (S i) rest found cbs
      end
  end.

Module Multi.

(** The multi-feed program (the source file without a name). *)

(** [setupMPEGTSReader] up to its read loop. *)
Definition setupMPEGTSReader (fe : feed_env) : setup_result :=
  if start_ok fe then
    if reader_ok fe then
      let '(found, cbs) := visit_tracks 0 (tracks fe) false [] in
      if negb found then PanicNoH264 else Ingesting cbs
    else PanicErr
  else PanicErr.

Definition GenerateM3U8String : string -> string -> string :=
  GenerateM3U8String_with "video_".

Fixpoint feeds_loop (e : Env) (udpInfo : list UDPAddressInfo) (st : loop_state)
    : exec loop_state :=
  match udpInfo with
  | [] => Done st
  | info :: rest =>
      let m := m3u8String st +:+ GenerateM3U8String (Bandwidth info) (Resolution info) in
      if listen_packet e (bound st) (Address info) then
        feeds_loop e rest
          {| m3u8String := m;
             bound := bound st ++ [Address info];
             launched := launched st ++ [Name info];
             muxMap := muxMap st |}
      else Panic
  end.

(** [main] up to the call [mux.GenerateMainManifest(header + m3u8String)]:
    the text passed to that call. *)
Definition main (e : Env) (directory udpAddresses : string) : exec string :=
  if mux_start e then
    let udpInfo := result (parseUDPAddresses udpAddresses) in
    match feeds_loop e udpInfo
            {| m3u8String := EmptyString; bound := []; launched := []; muxMap := ∅ |} with
    | Done st =>
        let m := m3u8String st +:+ GenerateM3U8String "1000000" "1280x720" in
        Done (header +:+ m)
    | Panic => Panic
    end
  else Panic.

End Multi.

Module Single.

(** The single-feed program (first program of examples/muxer/main.go): the
    feed list is not read, the manifest is the header and one fixed block. *)

(** [setupMPEGTSReader] up to its read loop.  The test [if !found] stands
    after the loop [for { ... }], which has no exit but a panic, so it is
    never reached. *)
Definition setupMPEGTSReader (fe : feed_env) : setup_result :=
  if start_ok fe then
    if reader_ok fe then
      let '(found, cbs) := visit_tracks_break 0 (tracks fe) false [] in
      Ingesting cbs
    else PanicErr
  else PanicErr.

Definition GenerateM3U8String : string -> string -> string :=
  GenerateM3U8String_with "video_".

Definition main (e : Env) (directory udpAddress : string) : exec string :=
  if mux_start e then
    let m := EmptyString +:+ GenerateM3U8String "1000000" "1280x720" in
    Done (header +:+ m)
  else Panic.

End Single.

Module Server.

(** The multi-feed program with the variant registry and the HTTP handler
    (second program of examples/muxer/main.go). *)

(** [setupMPEGTSReader] up to its read loop; the muxer is the one [main]
    put in the registry. *)
Definition setupMPEGTSReader (fe : feed_env) : setup_result :=
  if start_ok fe then
    if reader_ok fe then
      let '(found, cbs) := visit_tracks 0 (tracks fe) false [] in
      if negb found then PanicNoH264 else Ingesting cbs
    else PanicErr
  else PanicErr.

Definition GenerateM3U8String : string -> string -> string :=
  GenerateM3U8String_with "stream_".

Fixpoint feeds_loop (e : Env) (directory : string)
    (udpInfo : list UDPAddressInfo) (st : loop_state) : exec loop_state :=
  match udpInfo with
  | [] => Done st
  | info :: rest =>
      let m := m3u8String st +:+ GenerateM3U8String (Bandwidth info) (Resolution info) in
      if listen_packet e (bound st) (Address info) then
        let mux := {| Directory := directory; SegmentCount := 999999;
                      Prefix := Name info |} in
        feeds_loop e directory rest
          {| m3u8String := m;
             bound := bound st ++ [Address info];
             launched := launched st ++ [Name info];
             muxMap := <[Name info := mux]> (muxMap st) |}
      else Panic
  end.

(** [main] up to [mux.GenerateMainManifest(m3u8String)]: the final value of
    the global [m3u8String], which is the text passed to that call, and the
    registry handed to the handler.  [m3u8String0] is the value of the global
    when [main] starts; [main] overwrites it. *)
Definition main (e : Env) (m3u8String0 : string) (directory udpAddresses : string)
    : exec (string * gmap string Muxer) :=
  let m3u8String1 := EmptyString in
  if mux_start e then
    let udpInfo := result (parseUDPAddresses udpAddresses) in
    match feeds_loop e directory udpInfo
            {| m3u8String := m3u8String1; bound := []; launched := []; muxMap := ∅ |} with
    | Done st => Done (header +:+ m3u8String st, muxMap st)
    | Panic => Panic
    end
  else Panic.

(** *** The HTTP handler *)

(** What the handler does with a request: write a response itself, hand the
    request to a muxer's [Handle], or answer [http.NotFound]. *)
Inductive response : Type :=
  | Respond (contentType : string) (status : Z) (body : string)
  | MuxHandle (mux : Muxer)
  | NotFound.

(** [for resolution, mux := range muxMap]: Go visits the entries of a map in
    an unspecified order, [order] is the order of this visit. *)
Fixpoint range_muxMap (order : list (string * Muxer)) (path : string) : response :=
  match order with
  | [] => NotFound
  | (resolution, mux) :: rest =>
      if Contains path resolution then MuxHandle mux
      else range_muxMap rest path
  end.

(** The function returned by [handleM3u8Urls(muxMap)], at a request with
    [r.URL.Path = path]; [m3u8String] and [index] are the globals. *)
Definition handleM3u8Urls (m3u8String index : string)
    (order : list (string * Muxer)) (path : string) : response :=
  if String.eqb path "/video.m3u8" then
    Respond "application/vnd.apple.mpegurl" 200 m3u8String
  else if String.eqb path "/" then
    Respond "text/html" 200 index
  else range_muxMap order path.

(** The orders in which a [range] may visit [m]. *)
Definition visits (m : gmap string Muxer) (order : list (string * Muxer)) : Prop :=
  order ≡ₚ map_to_list m.

(** [muxMap[name] = mux] *)
Definition register (name : string) (mux : Muxer) (m : gmap string Muxer)
    : gmap string Muxer :=
  <[name := mux]> m.

End Server.

(** ** The timestamp decoder and the access-unit callbacks *)

(** The clock of MPEG-TS timestamps: 33 bits. *)
Definition clock_modulus : Z := 2 ^ 33.

(** Modelled from the spec: [mpegts.TimeDecoder] of the mediacommon package,
    which the programs call and whose code is not among the sources.  The
    decoder keeps the previous raw value and a running total; the first raw
    value is the epoch (total 0); each call adds to the total the signed
    difference between the raw value and the previous one modulo the clock
    modulus, that is the representative of the difference in
    [[-2^32, 2^32)].  The decoded duration is the total; the spec leaves its
    unit open and the total is kept here in ticks of the clock, which fixes
    the order of the durations and not their values. *)
Record TimeDecoder := {
  prev : Z;
  overall : Z
}.

(** Modelled from the spec: the signed difference of two raw values modulo
    the clock modulus. *)
Definition signed_diff (ts previous : Z) : Z :=
  let d := (ts - previous) mod clock_modulus in
  if 2 ^ 32 <=? d then d - clock_modulus else d.

(** Modelled from the spec: the first raw value is the epoch. *)
Definition NewTimeDecoder (start : Z) : TimeDecoder :=
  {| prev := start; overall := 0 |}.

(** Modelled from the spec: add the signed difference from the previous raw
    value to the running total, which is the decoded duration. *)
Definition Decode (d : TimeDecoder) (ts : Z) : TimeDecoder * Z :=
  let total := overall d + signed_diff ts (prev d) in
  ({| prev := ts; overall := total |}, total).

(** The part the video and audio callbacks of [setupMPEGTSReader] share:
    [if timeDec == nil { timeDec = mpegts.NewTimeDecoder(rawPTS) }] and
    [pts := timeDec.Decode(rawPTS)]; [timeDec] is the variable the closures
    capture. *)
Definition onData (timeDec : option TimeDecoder) (rawPTS : Z)
    : option TimeDecoder * Z :=
  let d := match timeDec with
           | None => NewTimeDecoder rawPTS
           | Some d => d
           end in
  let '(d', pts) := Decode d rawPTS in
  (Some d', pts).

(** The durations the callbacks compute for a sequence of raw values. *)
Fixpoint decode_from (timeDec : option TimeDecoder) (raws : list Z) : list Z :=
  match raws with
  | [] => []
  | rawPTS :: rest =>
      let '(timeDec', pts) := onData timeDec rawPTS in
      pts :: decode_from timeDec' rest
  end.

Definition decode_all (raws : list Z) : list Z := decode_from None raws.

(** Raw values of a timeline of ticks counted without wrap-around. *)
Definition raw_of (ticks : list Z) : list Z :=
  map (fun t => t mod clock_modulus) ticks.

(** Consecutive elements are related by [R]. *)
Fixpoint chain (R : Z -> Z -> Prop) (l : list Z) : Prop :=
  match l with
  | a :: (b :: _) as rest => R a b /\ chain R rest
  | _ => True
  end.

Definition non_decreasing (l : list Z) : Prop := chain Z.le l.
Definition strictly_increasing (l : list Z) : Prop := chain Z.lt l.

(** A timeline that does not go back and whose steps stay below half the
    modulus. *)
Definition short_forward_steps (ticks : list Z) : Prop :=
  chain (fun a b => a <= b < a + 2 ^ 32) ticks.

(** ** The read loop of a feed and the process *)

(** What one [r.Read()] does: deliver a video or an audio access unit to its
    callback and return nil, or return an error. *)
Inductive read_event : Type :=
  | VideoAU (rawPTS : Z)
  | AudioAU (rawPTS : Z)
  | ReadError.

(** The calls made on the feed's muxer. *)
Inductive mux_write : Type :=
  | WriteH26x (pts : Z)
  | WriteMPEG4Audio (pts : Z).

(** A feed's goroutine inside the loop [for { err := r.Read() ... }]: the
    decoder captured by the callbacks, the writes made so far and the
    outcomes of the reads to come (with none left the read blocks). *)
Record feed := {
  timeDec : option TimeDecoder;
  writes : list mux_write;
  pending : list read_event
}.

Inductive feed_step : Type :=
  | Blocked
  | Panics
  | Continues (f : feed).

(** One iteration of the loop: [err := r.Read(); if err != nil { panic(err) }].
    Of a callback the decoder and the call on the feed's muxer are kept, with
    the PTS it passes; the line a video callback writes to the log and the
    wall-clock time it passes along are not part of the state. *)
Definition read_once (f : feed) : feed_step :=
  match pending f with
  | [] => Blocked
  | ReadError :: _ => Panics
  | VideoAU rawPTS :: rest =>
      let '(td, pts) := onData (timeDec f) rawPTS in
      Continues {| timeDec := td; writes := writes f ++ [WriteH26x pts]; pending := rest |}
  | AudioAU rawPTS :: rest =>
      let '(td, pts) := onData (timeDec f) rawPTS in
      Continues {| timeDec := td; writes := writes f ++ [WriteMPEG4Audio pts]; pending := rest |}
  end.

(** The process: the goroutines [main] launched, one per feed, and the exit
    status once the process is gone.  The goroutines run
    [defer wg.Done(); setupMPEGTSReader(...)] and nothing calls [recover], so
    a panic in one of them ends the program with status 2. *)
Record process := {
  feeds : list feed;
  exit_status : option Z
}.

(** Goroutine [i] is scheduled for one iteration of its loop.  Only the read
    loops of the feeds are followed: the goroutine of [main], which waits for
    them, and the set-up of a feed before its loop are not steps of this
    relation. *)
Definition step (i : nat) (p : process) : process :=
  match exit_status p with
  | Some _ => p
  | None =>
      match feeds p !! i with
      | None => p
      | Some f =>
          match read_once f with
          | Blocked => p
          | Panics => {| feeds := feeds p; exit_status := Some 2 |}
          | Continues f' => {| feeds := <[i := f']> (feeds p); exit_status := None |}
          end
      end
  end.

Definition run (schedule : list nat) (p : process) : process :=
  fold_left (fun q i => step i q) schedule p.

(** A read failure of feed [i] is contained when the process survives it and
    every other feed goes on as it would have. *)
Definition read_failure_contained (p : process) (i : nat) : Prop :=
  exit_status (step i p) = None /\
  forall j, j <> i -> feeds (step j (step i p)) !! j = feeds (step j p) !! j.

(** ** Notions used in the statements and the inputs of the examples *)

(** The pairs the loop of [parseUDPAddresses] visits: none for the empty
    input, the comma-separated pieces otherwise. *)
Definition pairs_of (input : string) : list string :=
  if String.eqb input EmptyString then [] else Split input comma.

(** An input in the format of the usage text: not empty, and four fields in
    every pair. *)
Definition well_formed (input : string) : bool :=
  negb (String.eqb input EmptyString) && forallb four_fields (Split input comma).

(** [parts[0]], [parts[1]], [parts[2]], [parts[3]] of a split pair. *)
Definition record_of_parts (parts : list string) : UDPAddressInfo :=
  {| Address := nth 0 parts EmptyString;
     Name := nth 1 parts EmptyString;
     Resolution := nth 2 parts EmptyString;
     Bandwidth := nth 3 parts EmptyString |}.

(** No field of the record holds a pipe or a comma. *)
Definition clean_record (r : UDPAddressInfo) : Prop :=
  Forall (fun f => count_byte pipe f = O /\ count_byte comma f = O)
         [Address r; Name r; Resolution r; Bandwidth r].

Definition sample_input : string :=
  "a|b|1280x720|500000,bad,c|d|640x360|200000".

Definition all_ok : Env :=
  {| mux_start := true; listen_packet := fun _ _ => true |}.

Definition two_feeds : string :=
  "127.0.0.1:9000|A|640x360|200000,127.0.0.1:9001|B|1280x720|1000000".

Definition stream_inf_tag : string := "#EXT-X-STREAM-INF".

(** A second environment: the sockets of the feeds can be bound only while
    fewer than five addresses are bound. *)
Definition few_sockets : Env :=
  {| mux_start := true;
     listen_packet := fun b _ => Nat.ltb (length b) 5 |}.

(** The registry after registering variants ["480p"] and ["720p"]. *)
Definition two_variants (P1 P2 : Muxer) : gmap string Muxer :=
  Server.register "720p" P2 (Server.register "480p" P1 ∅).

(** The registry [main] builds for [two_feeds] with directory [d]. *)
Definition two_variants_in (d : string) : gmap string Muxer :=
  <["B" := {| Directory := d; SegmentCount := 999999; Prefix := "B" |}]>
    (<["A" := {| Directory := d; SegmentCount := 999999; Prefix := "A" |}]> ∅).

(** A feed list whose names are the variants ["480p"] and ["720p"]. *)
Definition two_named_feeds : string :=
  "127.0.0.1:9000|480p|854x480|500000,127.0.0.1:9001|720p|1280x720|1000000".

Definition mux480 : Muxer :=
  {| Directory := "/tmp/hls"; SegmentCount := 999999; Prefix := "480p" |}.

Definition mux720 : Muxer :=
  {| Directory := "/tmp/hls"; SegmentCount := 999999; Prefix := "720p" |}.

Definition failing_feed : feed :=
  {| timeDec := None; writes := []; pending := [ReadError] |}.

Definition healthy_feed : feed :=
  {| timeDec := None; writes := []; pending := [VideoAU 1000; VideoAU 4000] |}.

Definition two_feed_process : process :=
  {| feeds := [failing_feed; healthy_feed]; exit_status := None |}.

(** The byte that opens every tag of a manifest. *)
Definition hash : ascii := "#"%char.

(** The text is empty or opens with [#]. *)
Definition opens_with_hash (s : string) : Prop :=
  match s with
  | EmptyString => True
  | String c _ => c = hash
  end.

(** The muxer [main] of the registry program creates for the feed [name]. *)
Definition feed_muxer (directory name : string) : Muxer :=
  {| Directory := directory; SegmentCount := 999999; Prefix := name |}.

Definition start_state : loop_state :=
  {| m3u8String := EmptyString; bound := []; launched := []; muxMap := ∅ |}.

(** The callbacks the multi-feed programs register for the tracks [trs], the
    first of which has index [i]. *)
Fixpoint callbacks_of (i : nat) (trs : list codec) : list callback :=
  match trs with
  | [] => []
  | CodecH264 :: rest => OnDataH26x i :: callbacks_of (S i) rest
  | CodecMPEG4Audio :: rest => OnDataMPEG4Audio i :: callbacks_of (S i) rest
  | CodecOther :: rest => callbacks_of (S i) rest
  end.

(** The type test of [track.Codec] against the H264 codec. *)
Definition is_h264 (c : codec) : bool :=
  match c with
  | CodecH264 => true
  | _ => false
  end.

(** The index of the first H264 track among [trs], whose first index is [i]. *)
Fixpoint first_h264 (i : nat) (trs : list codec) : option nat :=
  match trs with
  | [] => None
  | CodecH264 :: _ => Some i
  | _ :: rest => first_h264 (S i) rest
  end.

(** No read to come returns an error. *)
Definition error_free (f : feed) : Prop := ReadError ∉ pending f.

(** The writes a feed makes for the access units [evs], up to the first
    error, starting with the decoder [td]. *)
Fixpoint deliveries (td : option TimeDecoder) (evs : list read_event)
    : list mux_write :=
  match evs with
  | [] => []
  | VideoAU rawPTS :: rest =>
      let '(td', pts) := onData td rawPTS in
      WriteH26x pts :: deliveries td' rest
  | AudioAU rawPTS :: rest =>
      let '(td', pts) := onData td rawPTS in
      WriteMPEG4Audio pts :: deliveries td' rest
  | ReadError :: _ => []
  end.

(** The decoder after the access units [evs]. *)
Fixpoint decoder_after (td : option TimeDecoder) (evs : list read_event)
    : option TimeDecoder :=
  match evs with
  | [] => td
  | VideoAU rawPTS :: rest => decoder_after (fst (onData td rawPTS)) rest
  | AudioAU rawPTS :: rest => decoder_after (fst (onData td rawPTS)) rest
  | ReadError :: _ => td
  end.

(** How often [i] occurs in a schedule. *)
Definition turns (i : nat) (schedule : list nat) : nat :=
  length (filter (fun j => j = i) schedule).

Definition raw_pts (ev : read_event) : Z :=
  match ev with
  | VideoAU rawPTS => rawPTS
  | AudioAU rawPTS => rawPTS
  | ReadError => 0
  end.

Definition write_pts (w : mux_write) : Z :=
  match w with
  | WriteH26x pts => pts
  | WriteMPEG4Audio pts => pts
  end.

(** * Properties *)

(** ** [strings.Split] and [strings.Join] *)

Section SplitJoin.

Variable sep : ascii.

Lemma Split_not_nil (s : string) : Split s sep <> [].
Proof.
  destruct s as [|c s]; simpl; [discriminate|].
  destruct (Ascii.eqb c sep); [discriminate|].
  destruct (Split s sep); discriminate.
Qed.

Lemma Split_length (s : string) :
  length (Split s sep) = S (count_byte sep s).
Proof.
  induction s as [|c s IH]; simpl; [reflexivity|].
  destruct (Ascii.eqb c sep); simpl; [now rewrite IH|].
  destruct (Split s sep) as [|p ps] eqn:E; simpl in *; [discriminate|exact IH].
Qed.

Lemma Split_pieces_clean (s : string) :
  Forall (fun p => count_byte sep p = O) (Split s sep).
Proof.
  induction s as [|c s IH]; simpl.
  - repeat constructor.
  - destruct (Ascii.eqb c sep) eqn:Ec.
    + constructor; [reflexivity|exact IH].
    + destruct (Split s sep) as [|p ps].
      * constructor; [simpl; now rewrite Ec|constructor].
      * inversion IH; subst. constructor; [simpl; rewrite Ec; simpl; assumption|assumption].
Qed.

Lemma Split_clean (s : string) :
  count_byte sep s = O -> Split s sep = [s].
Proof.
  induction s as [|c s IH]; simpl; [reflexivity|].
  destruct (Ascii.eqb c sep); simpl; [discriminate|].
  intros H. now rewrite (IH H).
Qed.

Lemma Split_app_sep (p q : string) :
  count_byte sep p = O ->
  Split (p +:+ String sep q) sep = p :: Split q sep.
Proof.
  induction p as [|c p IH]; simpl.
  - intros _. now rewrite Ascii.eqb_refl.
  - destruct (Ascii.eqb c sep); simpl; [discriminate|].
    intros H. now rewrite (IH H).
Qed.

Lemma Split_Join (es : list string) :
  es <> [] -> Forall (fun p => count_byte sep p = O) es ->
  Split (Join es sep) sep = es.
Proof.
  induction es as [|e es IH]; [congruence|].
  intros _ Hall. inversion Hall as [|? ? He Hes]; subst.
  destruct es as [|e' es'].
  - simpl. now apply Split_clean.
  - change (Join (e :: e' :: es') sep) with (e +:+ String sep (Join (e' :: es') sep)).
    rewrite Split_app_sep by assumption.
    f_equal. apply IH; [discriminate|assumption].
Qed.

Lemma Join_Split (s : string) : Join (Split s sep) sep = s.
Proof.
  induction s as [|c s IH]; simpl; [reflexivity|].
  destruct (Ascii.eqb c sep) eqn:Ec.
  - apply Ascii.eqb_eq in Ec; subst c.
    destruct (Split s sep) as [|p ps] eqn:E; [now apply Split_not_nil in E|].
    change (Join (EmptyString :: p :: ps) sep) with (String sep (Join (p :: ps) sep)).
    now rewrite IH.
  - destruct (Split s sep) as [|p ps] eqn:E; [now apply Split_not_nil in E|].
    destruct ps as [|p' ps']; simpl in *; now rewrite <- IH.
Qed.

End SplitJoin.

Lemma count_byte_app (c : ascii) (a b : string) :
  count_byte c (a +:+ b) = (count_byte c a + count_byte c b)%nat.
Proof.
  induction a as [|x a IH]; [reflexivity|].
  change (String x a +:+ b) with (String x (a +:+ b)).
  simpl. rewrite IH. lia.
Qed.

(** The pieces of a string without the byte [c] do not have it either. *)
Lemma Split_pieces_without (c sep : ascii) (s : string) :
  count_byte c s = O ->
  Forall (fun p => count_byte c p = O) (Split s sep).
Proof.
  induction s as [|a s IH]; simpl.
  - intros _. repeat constructor.
  - intros H.
    assert (Ha : (if Ascii.eqb a c then 1 else 0)%nat = O) by lia.
    assert (Hs : count_byte c s = O) by lia.
    specialize (IH Hs).
    destruct (Ascii.eqb a sep).
    + constructor; [reflexivity|exact IH].
    + destruct (Split s sep) as [|p ps].
      * constructor; [simpl; lia|constructor].
      * inversion IH; subst. constructor; [simpl; lia|assumption].
Qed.

Lemma Join_cons_not_empty (sep : ascii) (e : string) (es : list string) :
  e <> EmptyString -> Join (e :: es) sep <> EmptyString.
Proof.
  intros He. destruct es as [|e' es']; simpl; [exact He|].
  destruct e; [congruence|discriminate].
Qed.

(** ** The feed-list parser *)

Lemma parse_pair_cases (st : parse_state) (pair : string) :
  parse_pair st pair =
  if four_fields pair then
    {| result := result st ++ [record_of_parts (Split pair pipe)]; stdout := stdout st |}
  else
    {| result := result st; stdout := stdout st ++ [invalid_msg pair] |}.
Proof.
  unfold four_fields, parse_pair.
  destruct (Split pair pipe) as [|p0 [|p1 [|p2 [|p3 [|p4 ps]]]]]; reflexivity.
Qed.

Lemma filter_eqb_cons {A} (f : A -> bool) (b : bool) (a : A) (l : list A) :
  filter (fun x => f x = b) (a :: l) =
  if Bool.eqb (f a) b then a :: filter (fun x => f x = b) l
  else filter (fun x => f x = b) l.
Proof.
  rewrite filter_cons. destruct (decide (f a = b)) as [Hab|Hab].
  - rewrite Hab. now rewrite Bool.eqb_reflx.
  - destruct (f a), b; simpl; congruence.
Qed.

(** The loop accepts the pairs with four fields and reports the others, both
    in the order of the input. *)
Lemma parse_loop (pairs : list string) (st : parse_state) :
  fold_left parse_pair pairs st =
  {| result := result st ++
               map (fun pair => record_of_parts (Split pair pipe))
                   (filter (fun pair => four_fields pair = true) pairs);
     stdout := stdout st ++
               map invalid_msg (filter (fun pair => four_fields pair = false) pairs) |}.
Proof.
  revert st. induction pairs as [|pair pairs IH]; intros st; simpl.
  - rewrite !app_nil_r. now destruct st.
  - rewrite IH, parse_pair_cases.
    rewrite !filter_eqb_cons.
    destruct (four_fields pair) eqn:E; simpl; now rewrite <- app_assoc.
Qed.

Lemma parseUDPAddresses_spec (input : string) :
  parseUDPAddresses input =
  {| result := map (fun pair => record_of_parts (Split pair pipe))
                   (filter (fun pair => four_fields pair = true) (pairs_of input));
     stdout := map invalid_msg
                   (filter (fun pair => four_fields pair = false) (pairs_of input)) |}.
Proof.
  unfold parseUDPAddresses, pairs_of.
  destruct (String.eqb input EmptyString); [reflexivity|].
  now rewrite parse_loop.
Qed.

Lemma filter_split_length {A} (f : A -> bool) (l : list A) :
  (length (filter (fun a => f a = true) l) +
   length (filter (fun a => f a = false) l))%nat = length l.
Proof.
  induction l as [|a l IH]; [reflexivity|].
  rewrite !filter_eqb_cons. destruct (f a); simpl; lia.
Qed.

Lemma record_of_parts_clean (pair : string) :
  count_byte comma pair = O -> four_fields pair = true ->
  clean_record (record_of_parts (Split pair pipe)).
Proof.
  intros Hc Hf. unfold clean_record, four_fields in *.
  pose proof (Split_pieces_clean pipe pair) as Hp.
  pose proof (Split_pieces_without comma pipe pair Hc) as Hq.
  destruct (Split pair pipe) as [|p0 [|p1 [|p2 [|p3 [|p4 ps]]]]]; try discriminate.
  simpl.
  repeat match goal with
         | H : Forall _ (_ :: _) |- _ => inversion H; clear H; subst
         end.
  repeat constructor; assumption.
Qed.

Lemma parsed_records_clean (input : string) :
  Forall clean_record (result (parseUDPAddresses input)).
Proof.
  rewrite parseUDPAddresses_spec. simpl.
  assert (Hpairs : Forall (fun p => count_byte comma p = O) (pairs_of input)).
  { unfold pairs_of. destruct (String.eqb input EmptyString); [constructor|].
    apply Split_pieces_clean. }
  induction Hpairs as [|pair pairs Hp _ IH]; [constructor|].
  rewrite filter_eqb_cons. destruct (four_fields pair) eqn:Hf; [|exact IH].
  simpl. constructor; [|exact IH]. now apply record_of_parts_clean.
Qed.

Lemma format_record_split (r : UDPAddressInfo) :
  clean_record r ->
  Split (format_record r) pipe = [Address r; Name r; Resolution r; Bandwidth r].
Proof.
  intros Hr. unfold format_record. apply Split_Join; [discriminate|].
  unfold clean_record in Hr. eapply Forall_impl; [exact Hr|]. now intros f [H _].
Qed.

Lemma format_record_no_comma (r : UDPAddressInfo) :
  clean_record r -> count_byte comma (format_record r) = O.
Proof.
  intros Hr. unfold clean_record in Hr.
  repeat match goal with
         | H : Forall _ (_ :: _) |- _ => inversion H; clear H; subst
         end.
  unfold format_record. simpl.
  rewrite !count_byte_app. simpl. rewrite !count_byte_app. simpl.
  rewrite !count_byte_app. simpl.
  repeat match goal with H : _ /\ _ |- _ => destruct H end. lia.
Qed.

Lemma format_record_not_empty (r : UDPAddressInfo) :
  format_record r <> EmptyString.
Proof.
  unfold format_record. simpl. destruct (Address r); discriminate.
Qed.

Lemma parse_formatted (rs : list UDPAddressInfo) :
  Forall clean_record rs ->
  parseUDPAddresses (format_records rs) = {| result := rs; stdout := [] |}.
Proof.
  intros Hrs. destruct rs as [|r rs]; [reflexivity|].
  rewrite parseUDPAddresses_spec.
  assert (Hne : format_records (r :: rs) <> EmptyString).
  { unfold format_records. simpl map. apply Join_cons_not_empty, format_record_not_empty. }
  unfold pairs_of. apply String.eqb_neq in Hne. rewrite Hne.
  unfold format_records. rewrite Split_Join.
  2: discriminate.
  2: { apply Forall_map. eapply Forall_impl; [exact Hrs|]. intros x Hx.
       now apply format_record_no_comma. }
  clear Hne. induction Hrs as [|x xs Hx _ IH]; [reflexivity|].
  simpl map at 2 4. rewrite !filter_eqb_cons.
  assert (Hf : four_fields (format_record x) = true).
  { unfold four_fields. now rewrite format_record_split. }
  rewrite Hf. injection IH as IH1 IH2. simpl. rewrite IH1, IH2.
  rewrite format_record_split by exact Hx. now destruct x.
Qed.

Lemma format_accepted_pairs (pairs : list string) :
  forallb four_fields pairs = true ->
  map format_record
      (map (fun pair => record_of_parts (Split pair pipe))
           (filter (fun pair => four_fields pair = true) pairs)) = pairs /\
  filter (fun pair => four_fields pair = false) pairs = [].
Proof.
  induction pairs as [|pair pairs IH]; [now split|].
  simpl. intros Hall. apply andb_true_iff in Hall as [Hp Hps].
  specialize (IH Hps) as [IH1 IH2].
  rewrite !filter_eqb_cons. rewrite Hp. simpl.
  split; [|exact IH2].
  rewrite IH1. f_equal.
  unfold format_record, four_fields in *.
  pose proof (Join_Split pipe pair) as HJ.
  destruct (Split pair pipe) as [|p0 [|p1 [|p2 [|p3 [|p4 ps]]]]]; try discriminate.
  exact HJ.
Qed.

Lemma format_parsed_well_formed (input : string) :
  well_formed input = true ->
  format_records (result (parseUDPAddresses input)) = input /\
  stdout (parseUDPAddresses input) = [].
Proof.
  unfold well_formed. intros H. apply andb_true_iff in H as [Hne Hall].
  rewrite parseUDPAddresses_spec. simpl. unfold pairs_of.
  apply negb_true_iff in Hne. rewrite Hne.
  destruct (format_accepted_pairs _ Hall) as [H1 H2].
  unfold format_records. rewrite H1, H2. split; [apply Join_Split|reflexivity].
Qed.

(** C3: [parseUDPAddresses] is total on malformed input and idempotent on
    well-formed input.  For every input the parse runs to the end of the
    list: a pair whose number of pipe-delimited fields is not 4 is reported
    on standard output and skipped, every other pair is accepted, so that
    accepted and reported pairs together are all the pairs.  Parsing the
    formatted result of a parse gives the same records again and reports
    nothing; on a well-formed input (not empty, four fields in every pair)
    nothing is reported and formatting the result gives the input back.  The
    input ["a|b|1280x720|500000,bad,c|d|640x360|200000"] yields exactly the
    two valid records and exactly one report, for the pair ["bad"]. *)
Theorem parseUDPAddresses_total_idempotent (input : string) :
  (stdout (parseUDPAddresses input) =
     map invalid_msg (filter (fun pair => four_fields pair = false) (pairs_of input)) /\
   result (parseUDPAddresses input) =
     map (fun pair => record_of_parts (Split pair pipe))
         (filter (fun pair => four_fields pair = true) (pairs_of input)) /\
   (length (result (parseUDPAddresses input)) +
    length (stdout (parseUDPAddresses input)))%nat = length (pairs_of input)) /\
  parseUDPAddresses (format_records (result (parseUDPAddresses input))) =
    {| result := result (parseUDPAddresses input); stdout := [] |} /\
  (well_formed input = true ->
   stdout (parseUDPAddresses input) = [] /\
   format_records (result (parseUDPAddresses input)) = input) /\
  parseUDPAddresses sample_input =
    {| result :=
         [ {| Address := "a"; Name := "b"; Resolution := "1280x720"; Bandwidth := "500000" |};
           {| Address := "c"; Name := "d"; Resolution := "640x360"; Bandwidth := "200000" |} ];
       stdout := [ "Invalid UDP address format: 'bad'" +:+ nl ] |}.
Proof.
  split; [|split; [|split]].
  - rewrite parseUDPAddresses_spec. simpl.
    split; [reflexivity|split; [reflexivity|]].
    rewrite !length_map. apply (filter_split_length four_fields).
  - apply parse_formatted, parsed_records_clean.
  - intros Hwf. destruct (format_parsed_well_formed input Hwf). now split.
  - reflexivity.
Qed.

Lemma parseUDPAddresses_total_idempotent_witness :
  well_formed "a|b|1280x720|500000,c|d|640x360|200000" = true /\
  format_records (result (parseUDPAddresses "a|b|1280x720|500000,c|d|640x360|200000")) =
    "a|b|1280x720|500000,c|d|640x360|200000".
Proof.
  split; [reflexivity|].
  apply (proj1 (proj2 (proj2
    (parseUDPAddresses_total_idempotent "a|b|1280x720|500000,c|d|640x360|200000")))).
  reflexivity.
Defined.

(** C9: [parseUDPAddresses] keeps the order of the input and copies the
    fields as they are.  The i-th record returned comes from the i-th
    comma-separated pair with exactly four pipe-delimited fields, its fields
    are the four pieces of that pair, unchanged and unchecked; the pair
    ["|||"] of four empty fields is accepted; the empty input gives no record
    and no report. *)
Theorem parseUDPAddresses_order_verbatim (input : string) (i : nat) :
  result (parseUDPAddresses input) !! i =
    (fun pair => record_of_parts (Split pair pipe)) <$>
    filter (fun pair => four_fields pair = true) (pairs_of input) !! i /\
  (forall pair, filter (fun pair => four_fields pair = true) (pairs_of input) !! i = Some pair ->
     exists r, result (parseUDPAddresses input) !! i = Some r /\
       Split pair pipe = [Address r; Name r; Resolution r; Bandwidth r] /\
       format_record r = pair) /\
  parseUDPAddresses "|||" =
    {| result := [ {| Address := EmptyString; Name := EmptyString;
                      Resolution := EmptyString; Bandwidth := EmptyString |} ];
       stdout := [] |} /\
  parseUDPAddresses EmptyString = {| result := []; stdout := [] |}.
Proof.
  assert (Hi : result (parseUDPAddresses input) !! i =
    (fun pair => record_of_parts (Split pair pipe)) <$>
    filter (fun pair => four_fields pair = true) (pairs_of input) !! i).
  { rewrite parseUDPAddresses_spec. simpl. apply list_lookup_fmap. }
  split; [exact Hi|split; [|split; reflexivity]].
  intros pair Hpair. rewrite Hi, Hpair. simpl.
  exists (record_of_parts (Split pair pipe)). split; [reflexivity|].
  apply list_elem_of_lookup_2, list_elem_of_filter in Hpair as [Hf _].
  unfold four_fields in Hf. unfold format_record.
  pose proof (Join_Split pipe pair) as HJ.
  destruct (Split pair pipe) as [|p0 [|p1 [|p2 [|p3 [|p4 ps]]]]]; try discriminate.
  split; [reflexivity|exact HJ].
Qed.

Lemma parseUDPAddresses_order_verbatim_witness :
  exists r, result (parseUDPAddresses sample_input) !! 1%nat = Some r /\
    Split "c|d|640x360|200000" pipe = [Address r; Name r; Resolution r; Bandwidth r] /\
    format_record r = "c|d|640x360|200000".
Proof.
  apply (proj1 (proj2 (parseUDPAddresses_order_verbatim sample_input 1))).
  reflexivity.
Defined.

(** ** The manifest builder *)

Lemma string_app_assoc (a b c : string) : (a +:+ b) +:+ c = a +:+ (b +:+ c).
Proof.
  induction a as [|x a IH]; [reflexivity|].
  change (String x a +:+ b) with (String x (a +:+ b)).
  change (String x (a +:+ b) +:+ c) with (String x ((a +:+ b) +:+ c)).
  now rewrite IH.
Qed.

Lemma string_app_nil_r (a : string) : a +:+ EmptyString = a.
Proof.
  induction a as [|x a IH]; [reflexivity|].
  change (String x a +:+ EmptyString) with (String x (a +:+ EmptyString)).
  now rewrite IH.
Qed.

Lemma valid_resolution_one_x (resolution : string) :
  valid_resolution resolution = true <-> count_byte letter_x resolution = 1%nat.
Proof.
  unfold valid_resolution. rewrite Split_length, Nat.eqb_eq. lia.
Qed.

Section Builder.

Variable playlist : string.

Lemma Generate_valid (bandwidth resolution : string) :
  valid_resolution resolution = true ->
  GenerateM3U8String_with playlist bandwidth resolution =
  stream_inf_block playlist bandwidth resolution.
Proof.
  unfold valid_resolution, GenerateM3U8String_with, stream_inf_block, height_tag.
  destruct (Split resolution letter_x) as [|w [|h [|a l]]]; try discriminate.
  intros _. cbv zeta.
  change (EmptyString +:+ ?a) with a.
  now rewrite !string_app_assoc.
Qed.

Lemma Generate_invalid (bandwidth resolution : string) :
  valid_resolution resolution = false ->
  GenerateM3U8String_with playlist bandwidth resolution = EmptyString.
Proof.
  unfold valid_resolution, GenerateM3U8String_with.
  destruct (Split resolution letter_x) as [|w [|h [|a l]]]; try discriminate; reflexivity.
Qed.

(** Appending the builder's output for each descriptor in turn gives the
    blocks of the descriptors with an accepted resolution. *)
Lemma Generate_all (infos : list UDPAddressInfo) :
  concat_strings
    (map (fun info => GenerateM3U8String_with playlist (Bandwidth info) (Resolution info))
         infos) =
  blocks_of playlist infos.
Proof.
  unfold blocks_of. induction infos as [|info infos IH]; [reflexivity|].
  simpl map. rewrite filter_eqb_cons.
  destruct (valid_resolution (Resolution info)) eqn:E; simpl.
  - rewrite Generate_valid by exact E. now rewrite IH.
  - rewrite Generate_invalid by exact E. exact IH.
Qed.

Lemma blocks_of_app (l1 l2 : list UDPAddressInfo) :
  blocks_of playlist (l1 ++ l2) = blocks_of playlist l1 +:+ blocks_of playlist l2.
Proof.
  unfold blocks_of. induction l1 as [|info l1 IH]; [reflexivity|].
  simpl app. rewrite !filter_eqb_cons.
  destruct (valid_resolution (Resolution info)); simpl; [|exact IH].
  now rewrite IH, string_app_assoc.
Qed.

Lemma blocks_of_skip (l1 l2 : list UDPAddressInfo) (info : UDPAddressInfo) :
  valid_resolution (Resolution info) = false ->
  blocks_of playlist (l1 ++ info :: l2) = blocks_of playlist (l1 ++ l2).
Proof.
  intros H. rewrite !blocks_of_app. f_equal.
  unfold blocks_of. rewrite filter_eqb_cons. now rewrite H.
Qed.

End Builder.

(** The text accumulated by the loops of the two multi-feed programs. *)
Lemma Multi_feeds_loop_text (e : Env) (infos : list UDPAddressInfo)
    (st st' : loop_state) :
  Multi.feeds_loop e infos st = Done st' ->
  m3u8String st' = m3u8String st +:+ blocks_of "video_" infos.
Proof.
  revert st. induction infos as [|info infos IH]; intros st; simpl.
  - intros [= <-]. now rewrite string_app_nil_r.
  - destruct (listen_packet e (bound st) (Address info)); [|discriminate].
    intros H. apply IH in H. rewrite H. simpl.
    rewrite string_app_assoc. f_equal.
    rewrite <- !Generate_all. reflexivity.
Qed.

Lemma Server_feeds_loop_text (e : Env) (directory : string)
    (infos : list UDPAddressInfo) (st st' : loop_state) :
  Server.feeds_loop e directory infos st = Done st' ->
  m3u8String st' = m3u8String st +:+ blocks_of "stream_" infos.
Proof.
  revert st. induction infos as [|info infos IH]; intros st; simpl.
  - intros [= <-]. now rewrite string_app_nil_r.
  - destruct (listen_packet e (bound st) (Address info)); [|discriminate].
    intros H. apply IH in H. rewrite H. simpl.
    rewrite string_app_assoc. f_equal.
    rewrite <- !Generate_all. reflexivity.
Qed.

(** When every socket can be bound the loops run to their end. *)
Lemma Multi_feeds_loop_total (e : Env) (infos : list UDPAddressInfo) (st : loop_state) :
  (forall b a, listen_packet e b a = true) ->
  exists st', Multi.feeds_loop e infos st = Done st'.
Proof.
  intros Hl. revert st. induction infos as [|info infos IH]; intros st; simpl.
  - now exists st.
  - rewrite Hl. apply IH.
Qed.

Lemma Server_feeds_loop_total (e : Env) (directory : string)
    (infos : list UDPAddressInfo) (st : loop_state) :
  (forall b a, listen_packet e b a = true) ->
  exists st', Server.feeds_loop e directory infos st = Done st'.
Proof.
  intros Hl. revert st. induction infos as [|info infos IH]; intros st; simpl.
  - now exists st.
  - rewrite Hl. apply IH.
Qed.

Lemma Multi_main_text (e : Env) (directory udps m : string) :
  Multi.main e directory udps = Done m ->
  m = header +:+ blocks_of "video_" (result (parseUDPAddresses udps)) +:+
      stream_inf_block "video_" "1000000" "1280x720".
Proof.
  unfold Multi.main. destruct (mux_start e); [|discriminate].
  destruct (Multi.feeds_loop e _ _) as [st|] eqn:E; [|discriminate].
  intros [= <-]. apply Multi_feeds_loop_text in E. rewrite E. reflexivity.
Qed.

Lemma Server_main_text (e : Env) (g directory udps m : string)
    (reg : gmap string Muxer) :
  Server.main e g directory udps = Done (m, reg) ->
  m = header +:+ blocks_of "stream_" (result (parseUDPAddresses udps)).
Proof.
  unfold Server.main. destruct (mux_start e); [|discriminate].
  destruct (Server.feeds_loop e _ _ _) as [st|] eqn:E; [|discriminate].
  intros [= <- <-]. apply Server_feeds_loop_text in E. rewrite E. reflexivity.
Qed.

(** C2, the multi-feed program without the registry at the two feeds with
    bandwidths 200000 and 1000000: its manifest is not the header followed by
    one stream-info block per descriptor, it holds three blocks, the third
    one, which [main] appends after the loop, repeating the block of the
    second feed. *)
Lemma master_manifest_extra_block :
  Multi.main all_ok EmptyString two_feeds =
    Done (header +:+ stream_inf_block "video_" "200000" "640x360" +:+
          stream_inf_block "video_" "1000000" "1280x720" +:+
          stream_inf_block "video_" "1000000" "1280x720") /\
  Multi.main all_ok EmptyString two_feeds <>
    Done (header +:+ blocks_of "video_" (result (parseUDPAddresses two_feeds))) /\
  forall m, Multi.main all_ok EmptyString two_feeds = Done m ->
    count_occ_at m stream_inf_tag = 3%nat.
Proof.
  split; [reflexivity|split].
  - vm_compute. discriminate.
  - intros m. vm_compute. intros [= <-]. reflexivity.
Qed.

(** The texts the two multi-feed programs pass to [GenerateMainManifest].
    In the program with the variant registry the text is the fixed header
    followed by one stream-info block for each parsed descriptor with an
    accepted resolution, in the order of the descriptors, each block with the
    bandwidth of its descriptor; for the two feeds with bandwidths 200000 and
    1000000 it has exactly two blocks.  In the program without the registry
    the blocks of the descriptors, with the links of that program, are
    followed by the block [main] appends after its loop.  Start-up reaches
    the manifest whenever the muxer starts and every socket can be bound. *)
Theorem master_manifest_blocks (e : Env) (g directory udps : string) :
  (forall m reg, Server.main e g directory udps = Done (m, reg) ->
     m = header +:+ blocks_of "stream_" (result (parseUDPAddresses udps))) /\
  (forall m, Multi.main e directory udps = Done m ->
     m = header +:+ blocks_of "video_" (result (parseUDPAddresses udps)) +:+
         stream_inf_block "video_" "1000000" "1280x720") /\
  (mux_start e = true -> (forall b a, listen_packet e b a = true) ->
     (exists reg, Server.main e g directory udps =
        Done (header +:+ blocks_of "stream_" (result (parseUDPAddresses udps)), reg)) /\
     Multi.main e directory udps =
        Done (header +:+ blocks_of "video_" (result (parseUDPAddresses udps)) +:+
              stream_inf_block "video_" "1000000" "1280x720")) /\
  (exists reg, Server.main all_ok g directory two_feeds =
     Done (header +:+ stream_inf_block "stream_" "200000" "640x360" +:+
           stream_inf_block "stream_" "1000000" "1280x720", reg)) /\
  count_occ_at (header +:+ stream_inf_block "stream_" "200000" "640x360" +:+
                stream_inf_block "stream_" "1000000" "1280x720") stream_inf_tag = 2%nat.
Proof.
  split; [|split; [|split; [|split]]].
  - intros m reg. apply Server_main_text.
  - intros m. apply Multi_main_text.
  - intros Hs Hl. split.
    + unfold Server.main. rewrite Hs.
      destruct (Server_feeds_loop_total e directory (result (parseUDPAddresses udps))
                  {| m3u8String := EmptyString; bound := []; launched := []; muxMap := ∅ |} Hl)
        as [st Hst].
      rewrite Hst. exists (muxMap st).
      apply Server_feeds_loop_text in Hst. now rewrite Hst.
    + destruct (Multi.main e directory udps) as [m|] eqn:E.
      * now rewrite (Multi_main_text _ _ _ _ E).
      * unfold Multi.main in E. rewrite Hs in E.
        destruct (Multi_feeds_loop_total e (result (parseUDPAddresses udps))
                  {| m3u8String := EmptyString; bound := []; launched := []; muxMap := ∅ |} Hl)
          as [st Hst].
        rewrite Hst in E. discriminate.
  - unfold Server.main. simpl mux_start. cbv iota.
    destruct (Server_feeds_loop_total all_ok directory (result (parseUDPAddresses two_feeds))
                {| m3u8String := EmptyString; bound := []; launched := []; muxMap := ∅ |})
      as [st Hst]; [reflexivity|].
    rewrite Hst. exists (muxMap st).
    apply Server_feeds_loop_text in Hst. rewrite Hst. reflexivity.
  - reflexivity.
Qed.

Lemma master_manifest_blocks_witness :
  exists reg, Server.main all_ok EmptyString "/tmp/hls" two_feeds =
    Done (header +:+ blocks_of "stream_" (result (parseUDPAddresses two_feeds)), reg).
Proof.
  apply (proj1 (proj2 (proj2
    (master_manifest_blocks all_ok EmptyString "/tmp/hls" two_feeds)))).
  - reflexivity.
  - intros b a. reflexivity.
Defined.

(** C4, as stated, fails on the multi-feed program without the registry (and
    on the single-feed program, which has the same builder): the link of the
    block is [video_720p.m3u8], not [stream_720p.m3u8]. *)
Lemma GenerateM3U8String_video_link :
  Multi.GenerateM3U8String "1000000" "1280x720" =
    "#EXT-X-STREAM-INF:BANDWIDTH=1000000,AVERAGE-BANDWIDTH=1000000,CODECS=" +:+ dquote +:+
    "avc1.42c01f" +:+ dquote +:+ ",RESOLUTION=1280x720,FRAME-RATE=24.000" +:+ nl +:+
    "video_720p.m3u8" +:+ nl +:+ nl /\
  Multi.GenerateM3U8String "1000000" "1280x720" <>
    stream_inf_block "stream_" "1000000" "1280x720" /\
  Contains (Multi.GenerateM3U8String "1000000" "1280x720") "stream_720p.m3u8" = false.
Proof.
  split; [reflexivity|split; [|reflexivity]].
  vm_compute. discriminate.
Qed.

(** C4 (amended): for every descriptor whose resolution is [W], one [x] and
    [Height] (neither [W] nor [Height] holding an [x]) the manifest builder
    emits one stream-info block whose AVERAGE-BANDWIDTH is its BANDWIDTH,
    with the codec tag [avc1.42c01f], the resolution as given, the frame
    rate [24.000] and a relative link which is [stream_<Height>p.m3u8] in the
    program with the variant registry and [video_<Height>p.m3u8] in the other
    two programs. *)
Theorem GenerateM3U8String_block (bandwidth resolution w h : string) :
  count_byte letter_x w = O -> count_byte letter_x h = O ->
  resolution = w +:+ "x" +:+ h ->
  Server.GenerateM3U8String bandwidth resolution =
    "#EXT-X-STREAM-INF:BANDWIDTH=" +:+ bandwidth +:+
    ",AVERAGE-BANDWIDTH=" +:+ bandwidth +:+
    ",CODECS=" +:+ dquote +:+ "avc1.42c01f" +:+ dquote +:+
    ",RESOLUTION=" +:+ resolution +:+
    ",FRAME-RATE=24.000" +:+ nl +:+
    "stream_" +:+ h +:+ "p.m3u8" +:+ nl +:+ nl /\
  Multi.GenerateM3U8String bandwidth resolution =
    "#EXT-X-STREAM-INF:BANDWIDTH=" +:+ bandwidth +:+
    ",AVERAGE-BANDWIDTH=" +:+ bandwidth +:+
    ",CODECS=" +:+ dquote +:+ "avc1.42c01f" +:+ dquote +:+
    ",RESOLUTION=" +:+ resolution +:+
    ",FRAME-RATE=24.000" +:+ nl +:+
    "video_" +:+ h +:+ "p.m3u8" +:+ nl +:+ nl /\
  Single.GenerateM3U8String bandwidth resolution =
    Multi.GenerateM3U8String bandwidth resolution.
Proof.
  intros Hw Hh ->.
  assert (Hs : Split (w +:+ "x" +:+ h) letter_x = [w; h]).
  { change (w +:+ "x" +:+ h) with (w +:+ String letter_x h).
    rewrite Split_app_sep by exact Hw. now rewrite Split_clean. }
  assert (Hv : valid_resolution (w +:+ "x" +:+ h) = true).
  { unfold valid_resolution. now rewrite Hs. }
  unfold Server.GenerateM3U8String, Multi.GenerateM3U8String, Single.GenerateM3U8String.
  rewrite !Generate_valid by exact Hv.
  unfold stream_inf_block, height_tag. rewrite Hs.
  repeat split.
Qed.

Lemma GenerateM3U8String_block_witness :
  Server.GenerateM3U8String "1000000" "1280x720" =
    "#EXT-X-STREAM-INF:BANDWIDTH=1000000,AVERAGE-BANDWIDTH=1000000,CODECS=" +:+ dquote +:+
    "avc1.42c01f" +:+ dquote +:+ ",RESOLUTION=1280x720,FRAME-RATE=24.000" +:+ nl +:+
    "stream_720p.m3u8" +:+ nl +:+ nl.
Proof.
  apply (proj1 (GenerateM3U8String_block "1000000" "1280x720" "1280" "720"
                  eq_refl eq_refl eq_refl)).
Defined.

(** C6: the manifest builder is deterministic.  Two runs of the manifest
    assembly over the same descriptor list, in the same order and from the
    same accumulated text, end with the same text, whatever the two runs
    find in their environment (sockets, directory, registry, addresses bound
    before); two runs of [main] on the same feed list pass the same text to
    [GenerateMainManifest], whatever the global held before. *)
Theorem manifest_deterministic (e1 e2 : Env) (g1 g2 d1 d2 : string) :
  (forall infos st1 st2 r1 r2,
     m3u8String st1 = m3u8String st2 ->
     Server.feeds_loop e1 d1 infos st1 = Done r1 ->
     Server.feeds_loop e2 d2 infos st2 = Done r2 ->
     m3u8String r1 = m3u8String r2) /\
  (forall infos st1 st2 r1 r2,
     m3u8String st1 = m3u8String st2 ->
     Multi.feeds_loop e1 infos st1 = Done r1 ->
     Multi.feeds_loop e2 infos st2 = Done r2 ->
     m3u8String r1 = m3u8String r2) /\
  (forall udps m1 m2 reg1 reg2,
     Server.main e1 g1 d1 udps = Done (m1, reg1) ->
     Server.main e2 g2 d2 udps = Done (m2, reg2) ->
     m1 = m2) /\
  (forall udps m1 m2,
     Multi.main e1 d1 udps = Done m1 ->
     Multi.main e2 d2 udps = Done m2 ->
     m1 = m2) /\
  (forall u1 u2 m1 m2,
     Single.main e1 d1 u1 = Done m1 ->
     Single.main e2 d2 u2 = Done m2 ->
     m1 = m2).
Proof.
  split; [|split; [|split; [|split]]].
  - intros infos st1 st2 r1 r2 Hst H1 H2.
    apply Server_feeds_loop_text in H1, H2. now rewrite H1, H2, Hst.
  - intros infos st1 st2 r1 r2 Hst H1 H2.
    apply Multi_feeds_loop_text in H1, H2. now rewrite H1, H2, Hst.
  - intros udps m1 m2 reg1 reg2 H1 H2.
    apply Server_main_text in H1, H2. now rewrite H1, H2.
  - intros udps m1 m2 H1 H2.
    apply Multi_main_text in H1, H2. now rewrite H1, H2.
  - intros u1 u2 m1 m2. unfold Single.main.
    destruct (mux_start e1), (mux_start e2); try discriminate.
    now intros [= <-] [= <-].
Qed.

Lemma manifest_deterministic_witness :
  exists reg1 reg2,
    Server.main all_ok "old text" "/tmp/a" two_feeds =
      Done (header +:+ blocks_of "stream_" (result (parseUDPAddresses two_feeds)), reg1) /\
    Server.main few_sockets EmptyString "/tmp/b" two_feeds =
      Done (header +:+ stream_inf_block "stream_" "200000" "640x360" +:+
            stream_inf_block "stream_" "1000000" "1280x720", reg2) /\
    header +:+ blocks_of "stream_" (result (parseUDPAddresses two_feeds)) =
    header +:+ stream_inf_block "stream_" "200000" "640x360" +:+
    stream_inf_block "stream_" "1000000" "1280x720".
Proof.
  eexists. eexists.
  assert (H1 : Server.main all_ok "old text" "/tmp/a" two_feeds =
    Done (header +:+ blocks_of "stream_" (result (parseUDPAddresses two_feeds)),
          two_variants_in "/tmp/a")) by reflexivity.
  assert (H2 : Server.main few_sockets EmptyString "/tmp/b" two_feeds =
    Done (header +:+ stream_inf_block "stream_" "200000" "640x360" +:+
          stream_inf_block "stream_" "1000000" "1280x720",
          two_variants_in "/tmp/b")) by reflexivity.
  split; [exact H1|split; [exact H2|]].
  exact (proj1 (proj2 (proj2
    (manifest_deterministic all_ok few_sockets "old text" EmptyString "/tmp/a" "/tmp/b")))
    two_feeds _ _ _ _ H1 H2).
Defined.

(** C7: a descriptor whose resolution does not hold exactly one [x] (such as
    ["720"]) gets no stream-info block, and what the builder emits for the
    other descriptors of the list is the same with and without it. *)
Theorem invalid_resolution_skipped (bandwidth resolution : string) :
  count_byte letter_x resolution <> 1%nat ->
  (Multi.GenerateM3U8String bandwidth resolution = EmptyString /\
   Server.GenerateM3U8String bandwidth resolution = EmptyString /\
   Single.GenerateM3U8String bandwidth resolution = EmptyString) /\
  (forall before after info, Resolution info = resolution ->
     blocks_of "video_" (before ++ info :: after) = blocks_of "video_" (before ++ after) /\
     blocks_of "stream_" (before ++ info :: after) = blocks_of "stream_" (before ++ after)) /\
  (forall e e' d d' before after info st r r', Resolution info = resolution ->
     Server.feeds_loop e d (before ++ info :: after) st = Done r ->
     Server.feeds_loop e' d' (before ++ after) st = Done r' ->
     m3u8String r = m3u8String r') /\
  (forall e e' before after info st r r', Resolution info = resolution ->
     Multi.feeds_loop e (before ++ info :: after) st = Done r ->
     Multi.feeds_loop e' (before ++ after) st = Done r' ->
     m3u8String r = m3u8String r') /\
  Multi.GenerateM3U8String bandwidth "720" = EmptyString /\
  Server.GenerateM3U8String bandwidth "720" = EmptyString.
Proof.
  intros Hx.
  assert (Hv : valid_resolution resolution = false).
  { destruct (valid_resolution resolution) eqn:E; [|reflexivity].
    now apply valid_resolution_one_x in E. }
  split; [|split; [|split; [|split; [|split]]]].
  - unfold Multi.GenerateM3U8String, Server.GenerateM3U8String, Single.GenerateM3U8String.
    now rewrite !Generate_invalid by exact Hv.
  - intros before after info <-. split; now apply blocks_of_skip.
  - intros e e' d d' before after info st r r' <- H1 H2.
    apply Server_feeds_loop_text in H1, H2. rewrite H1, H2.
    now rewrite blocks_of_skip.
  - intros e e' before after info st r r' <- H1 H2.
    apply Multi_feeds_loop_text in H1, H2. rewrite H1, H2.
    now rewrite blocks_of_skip.
  - reflexivity.
  - reflexivity.
Qed.

Lemma invalid_resolution_skipped_witness :
  count_byte letter_x "720" <> 1%nat /\
  Server.GenerateM3U8String "500000" "720" = EmptyString /\
  blocks_of "stream_"
    ([ {| Address := "a"; Name := "A"; Resolution := "640x360"; Bandwidth := "200000" |} ] ++
     {| Address := "b"; Name := "B"; Resolution := "720"; Bandwidth := "500000" |} ::
     [ {| Address := "c"; Name := "C"; Resolution := "1280x720"; Bandwidth := "1000000" |} ]) =
  blocks_of "stream_"
    ([ {| Address := "a"; Name := "A"; Resolution := "640x360"; Bandwidth := "200000" |} ] ++
     [ {| Address := "c"; Name := "C"; Resolution := "1280x720"; Bandwidth := "1000000" |} ]).
Proof.
  assert (Hx : count_byte letter_x "720" <> 1%nat) by (simpl; lia).
  pose proof (invalid_resolution_skipped "500000" "720" Hx) as [[_ [Hs _]] [Hb _]].
  split; [exact Hx|split; [exact Hs|]].
  apply (Hb _ _ {| Address := "b"; Name := "B"; Resolution := "720"; Bandwidth := "500000" |}).
  reflexivity.
Defined.

(** ** The HTTP handler *)

Lemma range_muxMap_none (order : list (string * Muxer)) (path : string) :
  (forall name mux, (name, mux) ∈ order -> Contains path name = false) ->
  Server.range_muxMap order path = Server.NotFound.
Proof.
  induction order as [|[name mux] order IH]; intros H; simpl; [reflexivity|].
  rewrite (H name mux) by constructor.
  apply IH. intros n m Hin. apply (H n m). now constructor.
Qed.

Lemma range_muxMap_only (order : list (string * Muxer)) (path : string)
    (name : string) (mux : Muxer) :
  (name, mux) ∈ order -> Contains path name = true ->
  (forall name' mux', (name', mux') ∈ order -> Contains path name' = true -> mux' = mux) ->
  Server.range_muxMap order path = Server.MuxHandle mux.
Proof.
  induction order as [|[n m] order IH]; intros Hin Hc Hu; [now apply elem_of_nil in Hin|].
  simpl. destruct (Contains path n) eqn:E.
  - f_equal. apply (Hu n m); [constructor|exact E].
  - apply IH; [| exact Hc |].
    + apply elem_of_cons in Hin as [Heq|Hin]; [|exact Hin].
      injection Heq as -> ->. congruence.
    + intros n' m' Hin' Hc'. apply (Hu n' m'); [now constructor|exact Hc'].
Qed.

Lemma two_variants_visit (P1 P2 : Muxer) (order : list (string * Muxer))
    (name : string) (mux : Muxer) :
  Server.visits (two_variants P1 P2) order ->
  (name, mux) ∈ order <-> (name = "720p" /\ mux = P2) \/ (name = "480p" /\ mux = P1).
Proof.
  unfold Server.visits, two_variants, Server.register. intros Hp.
  rewrite Hp, elem_of_map_to_list. clear Hp.
  rewrite lookup_insert. case_decide as H1.
  - subst name. split.
    + intros [= <-]. left. split; reflexivity.
    + intros [[_ ->]|[H _]]; [reflexivity|discriminate H].
  - rewrite lookup_insert. case_decide as H2.
    + subst name. split.
      * intros [= <-]. right. split; reflexivity.
      * intros [[H _]|[_ ->]]; [discriminate H|reflexivity].
    + rewrite lookup_empty. split; [intros H; discriminate H|].
      intros [[H _]|[H _]]; congruence.
Qed.

(** [main] registers one muxer under the name of each feed. *)
Lemma main_registers_names :
  exists m, Server.main all_ok EmptyString "/tmp/hls" two_named_feeds =
    Done (m, two_variants mux480 mux720).
Proof. eexists. reflexivity. Qed.

(** C8, as stated, fails on a path that holds both names: the loop over the
    registry hands the request to the first entry it visits whose name
    occurs in the path, and a visit may start with ["480p"]. *)
Lemma lookup_first_visited_wins :
  Server.visits (two_variants mux480 mux720) [("480p", mux480); ("720p", mux720)] /\
  Contains "/720p/clip_480p.m3u8" "720p" = true /\
  Server.handleM3u8Urls "manifest" "index" [("480p", mux480); ("720p", mux720)]
    "/720p/clip_480p.m3u8" = Server.MuxHandle mux480 /\
  Server.MuxHandle mux480 <> Server.MuxHandle mux720.
Proof.
  split; [|split; [reflexivity|split; [reflexivity|discriminate]]].
  unfold Server.visits, two_variants, Server.register.
  rewrite map_to_list_insert by reflexivity.
  rewrite map_to_list_insert by reflexivity.
  rewrite map_to_list_empty. apply Permutation_swap.
Qed.

(** C8 (amended): after registering variants ["480p"] with P1 and ["720p"]
    with P2, whatever the order in which the registry is visited, a request
    whose path holds ["720p"] and not ["480p"] is handed to P2's handler, and
    a request whose path holds neither name, and is neither ["/"] nor
    ["/video.m3u8"], is answered not-found. *)
Theorem registry_lookup (P1 P2 : Muxer) (m3u8 index : string)
    (order : list (string * Muxer)) (path : string) :
  Server.visits (two_variants P1 P2) order ->
  (Contains path "720p" = true -> Contains path "480p" = false ->
   Server.handleM3u8Urls m3u8 index order path = Server.MuxHandle P2) /\
  (Contains path "720p" = false -> Contains path "480p" = false ->
   path <> "/" -> path <> "/video.m3u8" ->
   Server.handleM3u8Urls m3u8 index order path = Server.NotFound).
Proof.
  intros Hv. unfold Server.handleM3u8Urls. split.
  - intros H720 H480.
    destruct (String.eqb path "/video.m3u8") eqn:E1.
    { apply String.eqb_eq in E1. subst path. discriminate. }
    destruct (String.eqb path "/") eqn:E2.
    { apply String.eqb_eq in E2. subst path. discriminate. }
    apply (range_muxMap_only order path "720p" P2).
    + apply (two_variants_visit P1 P2 order _ _ Hv). left. split; reflexivity.
    + exact H720.
    + intros n m Hin Hc.
      apply (two_variants_visit P1 P2 order _ _ Hv) in Hin as [[_ ->]|[-> _]];
        [reflexivity|congruence].
  - intros H720 H480 Hroot Hmaster.
    apply String.eqb_neq in Hroot, Hmaster. rewrite Hroot, Hmaster.
    apply range_muxMap_none. intros n m Hin.
    apply (two_variants_visit P1 P2 order _ _ Hv) in Hin as [[-> _]|[-> _]]; assumption.
Qed.

Lemma registry_lookup_witness :
  Server.handleM3u8Urls "manifest" "index" [("480p", mux480); ("720p", mux720)]
    "/720p/index.m3u8" = Server.MuxHandle mux720 /\
  Server.handleM3u8Urls "manifest" "index" [("480p", mux480); ("720p", mux720)]
    "/1080p/index.m3u8" = Server.NotFound.
Proof.
  assert (Hv : Server.visits (two_variants mux480 mux720)
                 [("480p", mux480); ("720p", mux720)]).
  { unfold Server.visits, two_variants, Server.register.
    rewrite map_to_list_insert by reflexivity.
    rewrite map_to_list_insert by reflexivity.
    rewrite map_to_list_empty. apply Permutation_swap. }
  split.
  - apply (proj1 (registry_lookup mux480 mux720 "manifest" "index" _ "/720p/index.m3u8" Hv));
      reflexivity.
  - apply (proj2 (registry_lookup mux480 mux720 "manifest" "index" _ "/1080p/index.m3u8" Hv));
      [reflexivity|reflexivity|discriminate|discriminate].
Defined.

(** C10: the handler compares the path with ["/video.m3u8"] and with ["/"]
    before it looks at the registry, so these two paths are answered with the
    master manifest (content type application/vnd.apple.mpegurl) and with the
    landing page (content type text/html), status 200, for every content of
    the registry and every order of visit; this holds also when the name of
    a registered variant occurs in these paths, where the loop over the
    registry alone would have handed the request to that variant. *)
Theorem fixed_paths_first (m3u8 index : string) (order : list (string * Muxer)) :
  Server.handleM3u8Urls m3u8 index order "/video.m3u8" =
    Server.Respond "application/vnd.apple.mpegurl" 200 m3u8 /\
  Server.handleM3u8Urls m3u8 index order "/" =
    Server.Respond "text/html" 200 index /\
  Server.handleM3u8Urls m3u8 index (("video", mux720) :: ("/", mux480) :: order) "/video.m3u8" =
    Server.Respond "application/vnd.apple.mpegurl" 200 m3u8 /\
  Server.handleM3u8Urls m3u8 index (("/", mux480) :: order) "/" =
    Server.Respond "text/html" 200 index /\
  Server.range_muxMap (("video", mux720) :: ("/", mux480) :: order) "/video.m3u8" =
    Server.MuxHandle mux720 /\
  Server.range_muxMap (("/", mux480) :: order) "/" = Server.MuxHandle mux480.
Proof. repeat split. Qed.

(** ** The timestamp decoder *)

Lemma signed_diff_forward (a b : Z) :
  a <= b < a + 2 ^ 32 ->
  signed_diff (b mod clock_modulus) (a mod clock_modulus) = b - a.
Proof.
  intros H. unfold signed_diff, clock_modulus.
  rewrite <- Zminus_mod.
  rewrite (Z.mod_small (b - a)) by lia.
  destruct (Z.leb_spec (2 ^ 32) (b - a)); [lia|reflexivity].
Qed.

Lemma signed_diff_same (a : Z) : signed_diff a a = 0.
Proof. unfold signed_diff. now rewrite Z.sub_diag. Qed.

Lemma chain_tail (R : Z -> Z -> Prop) (a : Z) (l : list Z) :
  chain R (a :: l) -> chain R l.
Proof. destruct l as [|b l]; simpl; [trivial|now intros [_ H]]. Qed.

(** Along a timeline of short forward steps the decoder's total is the
    number of ticks since the first sample. *)
Lemma decode_from_timeline (t0 a : Z) (ticks : list Z) :
  short_forward_steps (a :: ticks) ->
  decode_from (Some {| prev := a mod clock_modulus; overall := a - t0 |}) (raw_of ticks) =
  map (fun t => t - t0) ticks.
Proof.
  revert a. induction ticks as [|b ticks IH]; intros a Hc; [reflexivity|].
  destruct Hc as [Hab Hc].
  cbn [raw_of map decode_from onData Decode prev overall].
  rewrite signed_diff_forward by exact Hab.
  replace (a - t0 + (b - a)) with (b - t0) by lia.
  f_equal. apply IH. exact Hc.
Qed.

Lemma decode_all_timeline (ticks : list Z) :
  short_forward_steps ticks ->
  decode_all (raw_of ticks) = map (fun t => t - hd 0 ticks) ticks.
Proof.
  destruct ticks as [|t0 ticks]; [reflexivity|]. intros Hc.
  unfold decode_all.
  cbn [raw_of map decode_from onData Decode NewTimeDecoder prev overall hd].
  rewrite signed_diff_same. rewrite Z.add_0_l, Z.sub_diag. f_equal.
  rewrite <- (decode_from_timeline t0 t0 ticks Hc).
  now rewrite Z.sub_diag.
Qed.

Lemma chain_shift (t0 : Z) (ticks : list Z) :
  short_forward_steps ticks -> non_decreasing (map (fun t => t - t0) ticks).
Proof.
  induction ticks as [|a ticks IH]; [trivial|].
  destruct ticks as [|b ticks]; [trivial|].
  intros [Hab Hc]. split; [lia|]. apply IH, Hc.
Qed.

(** C1, as stated, fails when two consecutive samples are half the modulus
    or more apart: the raw sequence [0, 2^33 - 1] increases and never wraps,
    yet the second sample is decoded one tick before the first. *)
Lemma decode_long_step_goes_back :
  non_decreasing [0; clock_modulus - 1] /\
  raw_of [0; clock_modulus - 1] = [0; clock_modulus - 1] /\
  decode_all (raw_of [0; clock_modulus - 1]) = [0; -1] /\
  ~ non_decreasing (decode_all (raw_of [0; clock_modulus - 1])).
Proof.
  split; [|split; [|split]].
  - unfold non_decreasing, clock_modulus. simpl. lia.
  - reflexivity.
  - reflexivity.
  - intros [H _]. vm_compute in H. apply H. reflexivity.
Qed.

(** C1 (amended): for every raw PTS input sequence that increases
    monotonically except for wrap-around at the modulus boundary (modulus
    2^33) and in which two consecutive samples are less than 2^32 ticks, half
    the modulus, apart, the decoded output sequence is non-decreasing; in
    particular, for M = 2^33 the raw sequence [M-10, M-5, 3] decodes to a
    strictly increasing sequence of durations. *)
Theorem decode_non_decreasing (ticks : list Z) :
  short_forward_steps ticks ->
  non_decreasing (decode_all (raw_of ticks)) /\
  raw_of [clock_modulus - 10; clock_modulus - 5; clock_modulus + 3] =
    [clock_modulus - 10; clock_modulus - 5; 3] /\
  strictly_increasing (decode_all [clock_modulus - 10; clock_modulus - 5; 3]).
Proof.
  intros Hc. split; [|split].
  - rewrite decode_all_timeline by exact Hc. now apply chain_shift.
  - reflexivity.
  - vm_compute. repeat split.
Qed.

Lemma decode_non_decreasing_witness :
  short_forward_steps [clock_modulus - 10; clock_modulus - 5; clock_modulus + 3] /\
  non_decreasing
    (decode_all (raw_of [clock_modulus - 10; clock_modulus - 5; clock_modulus + 3])).
Proof.
  assert (H : short_forward_steps
                [clock_modulus - 10; clock_modulus - 5; clock_modulus + 3]).
  { unfold short_forward_steps, clock_modulus. simpl. lia. }
  split; [exact H|].
  exact (proj1 (decode_non_decreasing _ H)).
Defined.

(** ** The read loop and the process *)

Lemma step_exited (i : nat) (p : process) (code : Z) :
  exit_status p = Some code -> step i p = p.
Proof. intros H. unfold step. now rewrite H. Qed.

Lemma run_exited (schedule : list nat) (p : process) (code : Z) :
  exit_status p = Some code -> run schedule p = p.
Proof.
  intros H. unfold run. induction schedule as [|i schedule IH]; [reflexivity|].
  simpl. now rewrite (step_exited i p code H).
Qed.

(** C5, as stated, fails: with two feeds in their read loops, the read
    failure of the first ends the process with status 2, and the second
    feed, which had two access units to read, writes none of them. *)
Lemma read_failure_not_contained :
  ~ read_failure_contained two_feed_process 0 /\
  exit_status (step 0 two_feed_process) = Some 2 /\
  (writes <$> feeds (run [1; 1]%nat two_feed_process) !! 1%nat) =
    Some [WriteH26x 0; WriteH26x 3000] /\
  (writes <$> feeds (run [0; 1; 1]%nat two_feed_process) !! 1%nat) = Some [].
Proof.
  split; [|split; [|split]]; try reflexivity.
  intros [H _]. discriminate H.
Qed.

(** C5 (amended): a read failure of a feed that is inside its read loop
    panics in that feed's goroutine and, nothing recovering from the panic,
    ends the whole process with exit status 2: from then on no feed, the
    failed one or another, reads or writes anything. *)
Theorem read_failure_ends_process (p : process) (i : nat) (f : feed)
    (rest : list read_event) :
  exit_status p = None ->
  feeds p !! i = Some f ->
  pending f = ReadError :: rest ->
  exit_status (step i p) = Some 2 /\
  feeds (step i p) = feeds p /\
  forall schedule, run schedule (step i p) = step i p.
Proof.
  intros Hrun Hf Hpend.
  assert (Hs : step i p = {| feeds := feeds p; exit_status := Some 2 |}).
  { unfold step, read_once. now rewrite Hrun, Hf, Hpend. }
  rewrite Hs. split; [reflexivity|split; [reflexivity|]].
  intros schedule. now apply (run_exited schedule _ 2).
Qed.

Lemma read_failure_ends_process_witness :
  exit_status (step 0 two_feed_process) = Some 2 /\
  run [1; 1]%nat (step 0 two_feed_process) = step 0 two_feed_process.
Proof.
  destruct (read_failure_ends_process two_feed_process 0 failing_feed []
              eq_refl eq_refl eq_refl) as [H1 [_ H2]].
  split; [exact H1|apply H2].
Defined.

(** * Further properties of the programs *)

(** ** The feed-list parser: composition, edges and round trip *)

Lemma Split_app (sep : ascii) (a b : string) :
  Split (a +:+ String sep b) sep = Split a sep ++ Split b sep.
Proof.
  induction a as [|c a IH].
  - change (EmptyString +:+ String sep b) with (String sep b).
    simpl. now rewrite Ascii.eqb_refl.
  - change (String c a +:+ String sep b) with (String c (a +:+ String sep b)).
    simpl. rewrite IH. destruct (Ascii.eqb c sep); [reflexivity|].
    destruct (Split a sep) as [|p ps] eqn:E; [now apply Split_not_nil in E|].
    reflexivity.
Qed.

Lemma app_sep_not_empty (sep : ascii) (a b : string) :
  String.eqb (a +:+ String sep b) EmptyString = false.
Proof. destruct a; reflexivity. Qed.

Lemma pairs_of_not_empty (input : string) :
  input <> EmptyString -> pairs_of input = Split input comma.
Proof.
  intros H. unfold pairs_of. apply String.eqb_neq in H. now rewrite H.
Qed.

Lemma parse_pairs_app (l1 l2 : list string) :
  fold_left parse_pair (l1 ++ l2) {| result := []; stdout := [] |} =
  {| result := result (fold_left parse_pair l1 {| result := []; stdout := [] |}) ++
               result (fold_left parse_pair l2 {| result := []; stdout := [] |});
     stdout := stdout (fold_left parse_pair l1 {| result := []; stdout := [] |}) ++
               stdout (fold_left parse_pair l2 {| result := []; stdout := [] |}) |}.
Proof.
  rewrite !parse_loop. simpl. now rewrite !filter_app, !map_app.
Qed.

(** X1: parsing composes over the comma.  For two non-empty feed lists, the
    records and the reports of their concatenation with a comma between them
    are the records and the reports of the first followed by those of the
    second. *)
Theorem parse_concat (a b : string) :
  a <> EmptyString -> b <> EmptyString ->
  parseUDPAddresses (a +:+ "," +:+ b) =
  {| result := result (parseUDPAddresses a) ++ result (parseUDPAddresses b);
     stdout := stdout (parseUDPAddresses a) ++ stdout (parseUDPAddresses b) |}.
Proof.
  intros Ha Hb. unfold parseUDPAddresses.
  change (a +:+ "," +:+ b) with (a +:+ String comma b).
  rewrite app_sep_not_empty.
  apply String.eqb_neq in Ha, Hb. rewrite Ha, Hb.
  cbv zeta. rewrite Split_app. apply parse_pairs_app.
Qed.

Lemma parse_concat_witness :
  parseUDPAddresses ("a|b|1280x720|500000,bad" +:+ "," +:+ "c|d|640x360|200000") =
  {| result := result (parseUDPAddresses "a|b|1280x720|500000,bad") ++
               result (parseUDPAddresses "c|d|640x360|200000");
     stdout := stdout (parseUDPAddresses "a|b|1280x720|500000,bad") ++
               stdout (parseUDPAddresses "c|d|640x360|200000") |}.
Proof.
  apply (parse_concat "a|b|1280x720|500000,bad" "c|d|640x360|200000"); discriminate.
Defined.

(** X2: a comma at the end or at the start of a non-empty feed list is not
    ignored: the empty pair next to it is reported as invalid, after the
    reports of the list for a comma at the end and before them for a comma at
    the start; the records are those of the list. *)
Theorem parse_empty_pair_reported (a : string) :
  a <> EmptyString ->
  parseUDPAddresses (a +:+ ",") =
    {| result := result (parseUDPAddresses a);
       stdout := stdout (parseUDPAddresses a) ++ [invalid_msg EmptyString] |} /\
  parseUDPAddresses ("," +:+ a) =
    {| result := result (parseUDPAddresses a);
       stdout := invalid_msg EmptyString :: stdout (parseUDPAddresses a) |}.
Proof.
  intros Ha. apply String.eqb_neq in Ha. split.
  - unfold parseUDPAddresses at 1.
    change (a +:+ ",") with (a +:+ String comma EmptyString).
    rewrite app_sep_not_empty. cbv zeta. rewrite Split_app, parse_pairs_app.
    unfold parseUDPAddresses. rewrite Ha. simpl. now rewrite app_nil_r.
  - unfold parseUDPAddresses at 1.
    change ("," +:+ a) with (EmptyString +:+ String comma a).
    rewrite app_sep_not_empty. cbv zeta. rewrite Split_app, parse_pairs_app.
    unfold parseUDPAddresses. rewrite Ha. reflexivity.
Qed.

Lemma parse_empty_pair_reported_witness :
  parseUDPAddresses ("a|b|1280x720|500000" +:+ ",") =
    {| result := result (parseUDPAddresses "a|b|1280x720|500000");
       stdout := stdout (parseUDPAddresses "a|b|1280x720|500000") ++
                 [invalid_msg EmptyString] |}.
Proof.
  apply (proj1 (parse_empty_pair_reported "a|b|1280x720|500000" ltac:(discriminate))).
Defined.

(** X3: no field of a record the parser returns holds a comma or a pipe,
    whatever the input. *)
Theorem parsed_fields_without_separators (input : string) (r : UDPAddressInfo) :
  r ∈ result (parseUDPAddresses input) ->
  Forall (fun f => count_byte pipe f = O /\ count_byte comma f = O)
         [Address r; Name r; Resolution r; Bandwidth r].
Proof.
  intros Hr. pose proof (parsed_records_clean input) as H.
  rewrite Forall_forall in H. exact (H r Hr).
Qed.

Lemma parsed_fields_without_separators_witness :
  Forall (fun f => count_byte pipe f = O /\ count_byte comma f = O)
         ["c"; "d"; "640x360"; "200000"].
Proof.
  apply (parsed_fields_without_separators sample_input
           {| Address := "c"; Name := "d"; Resolution := "640x360"; Bandwidth := "200000" |}).
  vm_compute. apply list_elem_of_further, list_elem_of_here.
Defined.

(** X4: the parser inverts the format of the flag.  For every list of
    records whose fields hold neither a comma nor a pipe, parsing the
    formatted list returns the list and reports nothing; hence two such lists
    with the same formatted text are equal. *)
Theorem parse_format_round_trip (rs rs' : list UDPAddressInfo) :
  Forall clean_record rs ->
  parseUDPAddresses (format_records rs) = {| result := rs; stdout := [] |} /\
  (Forall clean_record rs' -> format_records rs = format_records rs' -> rs = rs').
Proof.
  intros Hrs. split; [now apply parse_formatted|].
  intros Hrs' Heq.
  pose proof (parse_formatted rs Hrs) as H1.
  pose proof (parse_formatted rs' Hrs') as H2.
  rewrite Heq in H1. rewrite H1 in H2. now injection H2.
Qed.

Lemma parse_format_round_trip_witness :
  parseUDPAddresses
    (format_records
       [ {| Address := "127.0.0.1:9000"; Name := EmptyString;
            Resolution := "640x360"; Bandwidth := "200000" |};
         {| Address := EmptyString; Name := "B"; Resolution := "x"; Bandwidth := "1 Mbit" |} ]) =
  {| result :=
       [ {| Address := "127.0.0.1:9000"; Name := EmptyString;
            Resolution := "640x360"; Bandwidth := "200000" |};
         {| Address := EmptyString; Name := "B"; Resolution := "x"; Bandwidth := "1 Mbit" |} ];
     stdout := [] |}.
Proof.
  apply (proj1 (parse_format_round_trip
    [ {| Address := "127.0.0.1:9000"; Name := EmptyString;
         Resolution := "640x360"; Bandwidth := "200000" |};
      {| Address := EmptyString; Name := "B"; Resolution := "x"; Bandwidth := "1 Mbit" |} ]
    [] ltac:(repeat constructor))).
Defined.

(** X5: a feed list of one pair (no comma) is accepted exactly when it holds
    three pipes, and nothing else is checked: with three pipes the parser
    returns one record, whose fields joined by pipes are the input, and
    reports nothing; with any other number of pipes it returns no record and
    reports the input. *)
Theorem parse_single_pair (pair : string) :
  pair <> EmptyString -> count_byte comma pair = O ->
  (count_byte pipe pair = 3%nat ->
   exists r, parseUDPAddresses pair = {| result := [r]; stdout := [] |} /\
             format_record r = pair) /\
  (count_byte pipe pair <> 3%nat ->
   parseUDPAddresses pair = {| result := []; stdout := [invalid_msg pair] |}).
Proof.
  intros Hne Hc.
  assert (Hp : parseUDPAddresses pair = parse_pair {| result := []; stdout := [] |} pair).
  { unfold parseUDPAddresses. apply String.eqb_neq in Hne. rewrite Hne.
    cbv zeta. now rewrite (Split_clean comma pair Hc). }
  rewrite Hp, parse_pair_cases. unfold four_fields. rewrite Split_length.
  split; intros H3.
  - rewrite H3. simpl. eexists. split; [reflexivity|].
    pose proof (Join_Split pipe pair) as HJ.
    pose proof (Split_length pipe pair) as HL. rewrite H3 in HL.
    unfold format_record.
    destruct (Split pair pipe) as [|p0 [|p1 [|p2 [|p3 [|p4 ps]]]]]; try discriminate.
    exact HJ.
  - destruct (Nat.eqb_spec (S (count_byte pipe pair)) 4) as [E|E]; [lia|reflexivity].
Qed.

Lemma parse_single_pair_witness :
  parseUDPAddresses "a|b|c|d|e" =
    {| result := []; stdout := [invalid_msg "a|b|c|d|e"] |}.
Proof.
  apply (proj2 (parse_single_pair "a|b|c|d|e" ltac:(discriminate) eq_refl)).
  simpl. lia.
Defined.

(** ** The manifest: how many variants it lists *)

Lemma ascii_eqb_sym (a b : ascii) : Ascii.eqb a b = Ascii.eqb b a.
Proof.
  destruct (Ascii.eqb_spec a b) as [->|H]; [now rewrite Ascii.eqb_refl|].
  symmetry. apply Ascii.eqb_neq. congruence.
Qed.

(** A text without [#] that starts inside [u] cannot run on into a text that
    opens with [#]. *)
Lemma HasPrefix_app_hash (u b t : string) :
  count_byte hash t = O -> opens_with_hash b ->
  HasPrefix (u +:+ b) t = HasPrefix u t.
Proof.
  intros Ht Hb. revert t Ht. induction u as [|x u IH]; intros t Ht.
  - change (EmptyString +:+ b) with b.
    destruct t as [|c t]; [now destruct b|].
    destruct b as [|y b]; [reflexivity|].
    simpl in Hb. subst y. simpl in *.
    destruct (Ascii.eqb c hash); [discriminate|reflexivity].
  - change (String x u +:+ b) with (String x (u +:+ b)).
    destruct t as [|c t]; [reflexivity|]. simpl in *.
    rewrite IH; [reflexivity|].
    destruct (Ascii.eqb c hash); [discriminate|exact Ht].
Qed.

Lemma count_tag_app (a b : string) :
  opens_with_hash b ->
  count_occ_at (a +:+ b) stream_inf_tag =
  (count_occ_at a stream_inf_tag + count_occ_at b stream_inf_tag)%nat.
Proof.
  intros Hb. induction a as [|x a IH]; [reflexivity|].
  change (String x a +:+ b) with (String x (a +:+ b)).
  cbn [count_occ_at]. rewrite IH.
  assert (HP : HasPrefix (String x (a +:+ b)) stream_inf_tag =
               HasPrefix (String x a) stream_inf_tag).
  { unfold stream_inf_tag. cbn [HasPrefix].
    now rewrite (HasPrefix_app_hash a b "EXT-X-STREAM-INF" eq_refl Hb). }
  rewrite HP. lia.
Qed.

Lemma count_tag_le_hash (s : string) :
  (count_occ_at s stream_inf_tag <= count_byte hash s)%nat.
Proof.
  induction s as [|x s IH]; [simpl; lia|].
  cbn [count_occ_at count_byte]. unfold stream_inf_tag at 1. cbn [HasPrefix].
  rewrite (ascii_eqb_sym "#" x). fold hash.
  destruct (Ascii.eqb x hash); simpl.
  - destruct (HasPrefix s "EXT-X-STREAM-INF"); lia.
  - lia.
Qed.

Lemma height_tag_without (c : ascii) (resolution : string) :
  count_byte c resolution = O -> count_byte c (height_tag resolution) = O.
Proof.
  intros H. unfold height_tag.
  pose proof (Split_pieces_without c letter_x resolution H) as HF.
  destruct (Split resolution letter_x) as [|w [|h [|a l]]]; try reflexivity.
  inversion HF as [|? ? _ HF']; subst. now inversion HF'.
Qed.

Section TagCount.

Variable playlist : string.
Hypothesis playlist_plain : count_byte hash playlist = O.

Lemma block_one_tag (bandwidth resolution : string) :
  count_byte hash bandwidth = O -> count_byte hash resolution = O ->
  count_occ_at (stream_inf_block playlist bandwidth resolution) stream_inf_tag = 1%nat.
Proof.
  intros Hb Hr. unfold stream_inf_block.
  change ("#EXT-X-STREAM-INF:BANDWIDTH=" +:+ ?x)
    with (String "#" ("EXT-X-STREAM-INF:BANDWIDTH=" +:+ x)).
  match goal with |- count_occ_at (String _ ?body) _ = _ => set (rest := body) end.
  assert (Hrest : count_byte hash rest = O).
  { subst rest. rewrite !count_byte_app, Hb, Hr, playlist_plain.
    rewrite (height_tag_without hash resolution Hr). reflexivity. }
  cbn [count_occ_at].
  pose proof (count_tag_le_hash rest) as Hle. rewrite Hrest in Hle.
  assert (HP : HasPrefix (String "#" rest) stream_inf_tag = true) by reflexivity.
  rewrite HP. lia.
Qed.

Lemma blocks_open_with_hash (infos : list UDPAddressInfo) :
  opens_with_hash (blocks_of playlist infos).
Proof.
  unfold blocks_of.
  destruct (filter _ infos) as [|info l]; [exact I|reflexivity].
Qed.

Lemma blocks_tag_count (infos : list UDPAddressInfo) :
  Forall (fun info => count_byte hash (Bandwidth info) = O /\
                      count_byte hash (Resolution info) = O) infos ->
  count_occ_at (blocks_of playlist infos) stream_inf_tag =
  length (filter (fun info => valid_resolution (Resolution info) = true) infos).
Proof.
  induction 1 as [|info infos [Hb Hr] _ IH]; [reflexivity|].
  change (info :: infos) with ([info] ++ infos).
  rewrite blocks_of_app, count_tag_app by apply blocks_open_with_hash.
  rewrite IH, filter_app, length_app. f_equal.
  unfold blocks_of. rewrite filter_eqb_cons.
  destruct (valid_resolution (Resolution info)); simpl; [|reflexivity].
  rewrite string_app_nil_r. now apply block_one_tag.
Qed.

End TagCount.

(** X6: the number of variants the master manifest lists.  When no
    bandwidth and no resolution of the feed list holds a [#], the tag
    [#EXT-X-STREAM-INF] occurs in the manifest of the registry program once
    for each descriptor whose resolution holds exactly one [x], and once more
    in the manifest of the multi-feed program without the registry. *)
Theorem manifest_tag_count (e : Env) (g directory udps : string) :
  Forall (fun info => count_byte hash (Bandwidth info) = O /\
                      count_byte hash (Resolution info) = O)
         (result (parseUDPAddresses udps)) ->
  (forall m reg, Server.main e g directory udps = Done (m, reg) ->
     count_occ_at m stream_inf_tag =
     length (filter (fun info => count_byte letter_x (Resolution info) = 1%nat)
                    (result (parseUDPAddresses udps)))) /\
  (forall m, Multi.main e directory udps = Done m ->
     count_occ_at m stream_inf_tag =
     S (length (filter (fun info => count_byte letter_x (Resolution info) = 1%nat)
                       (result (parseUDPAddresses udps))))).
Proof.
  intros Hplain.
  assert (Hf : forall infos : list UDPAddressInfo,
    filter (fun info => count_byte letter_x (Resolution info) = 1%nat) infos =
    filter (fun info => valid_resolution (Resolution info) = true) infos).
  { intros infos. apply list_filter_iff. intros info.
    symmetry. apply valid_resolution_one_x. }
  rewrite Hf. split.
  - intros m reg Hm. apply Server_main_text in Hm. subst m.
    rewrite count_tag_app by apply blocks_open_with_hash.
    rewrite (blocks_tag_count "stream_" eq_refl _ Hplain). reflexivity.
  - intros m Hm. apply Multi_main_text in Hm. subst m.
    rewrite <- string_app_assoc.
    rewrite count_tag_app by reflexivity.
    rewrite count_tag_app by apply blocks_open_with_hash.
    rewrite (blocks_tag_count "video_" eq_refl _ Hplain).
    rewrite (block_one_tag "video_" eq_refl "1000000" "1280x720" eq_refl eq_refl).
    change (count_occ_at header stream_inf_tag) with O. lia.
Qed.

Lemma manifest_tag_count_witness :
  count_occ_at
    (header +:+ blocks_of "stream_"
       (result (parseUDPAddresses "a|A|640x360|200000,b|B|720|500000,c|C|1280x720|1000000")))
    stream_inf_tag = 2%nat.
Proof.
  refine (proj1 (manifest_tag_count all_ok EmptyString "/tmp/hls"
    "a|A|640x360|200000,b|B|720|500000,c|C|1280x720|1000000"
    ltac:(repeat constructor)) _ _ _).
  reflexivity.
Defined.

(** X7: the builder emits text exactly for the resolutions that hold exactly
    one [x]: its output is empty if and only if the number of [x] in the
    resolution is not one, in each of the programs; the bandwidth and what
    stands around the [x] play no part. *)
Theorem GenerateM3U8String_empty_iff (bandwidth resolution : string) :
  (Server.GenerateM3U8String bandwidth resolution = EmptyString <->
   count_byte letter_x resolution <> 1%nat) /\
  (Multi.GenerateM3U8String bandwidth resolution = EmptyString <->
   count_byte letter_x resolution <> 1%nat) /\
  (Single.GenerateM3U8String bandwidth resolution = EmptyString <->
   count_byte letter_x resolution <> 1%nat).
Proof.
  assert (H : forall playlist,
    GenerateM3U8String_with playlist bandwidth resolution = EmptyString <->
    count_byte letter_x resolution <> 1%nat).
  { intros playlist. rewrite <- valid_resolution_one_x.
    destruct (valid_resolution resolution) eqn:E.
    - rewrite Generate_valid by exact E. split; [discriminate|congruence].
    - rewrite Generate_invalid by exact E. split; [discriminate|reflexivity]. }
  repeat split; apply H.
Qed.

(** ** Start-up: sockets, goroutines and the registry *)

(** The muxers registered under the names of [infos], on top of [m]. *)
Lemma registry_fold_lookup (directory : string) (infos : list UDPAddressInfo)
    (m : gmap string Muxer) (name : string) :
  fold_left (fun acc info => <[Name info := feed_muxer directory (Name info)]> acc) infos m
    !! name =
  if decide (name ∈ map Name infos) then Some (feed_muxer directory name) else m !! name.
Proof.
  revert m. induction infos as [|info infos IH]; intros m; [reflexivity|].
  cbn [fold_left map]. rewrite IH.
  destruct (decide (name ∈ map Name infos)) as [Hin|Hin].
  - rewrite decide_True; [reflexivity|]. now apply list_elem_of_further.
  - destruct (decide (name = Name info)) as [->|Hne].
    + rewrite decide_True by apply list_elem_of_here.
      now rewrite lookup_insert_eq.
    + rewrite decide_False.
      * now rewrite lookup_insert_ne by congruence.
      * intros H. apply elem_of_cons in H as [H|H]; contradiction.
Qed.

Lemma remove_dups_length_le (l : list string) :
  (length (remove_dups l) <= length l)%nat.
Proof.
  induction l as [|x l IH]; simpl; [lia|].
  destruct (decide_rel elem_of x l); simpl; lia.
Qed.

Lemma remove_dups_length_eq (l : list string) :
  length (remove_dups l) = length l <-> NoDup l.
Proof.
  induction l as [|x l IH]; simpl.
  - split; [constructor|reflexivity].
  - rewrite NoDup_cons. pose proof (remove_dups_length_le l) as Hle.
    destruct (decide_rel elem_of x l) as [Hin|Hin]; simpl.
    + split; [lia|]. intros [Hn _]. contradiction.
    + split.
      * intros H. split; [exact Hin|]. apply IH. lia.
      * intros [_ H]. apply IH in H. lia.
Qed.

Lemma Server_feeds_loop_done (e : Env) (directory : string)
    (infos : list UDPAddressInfo) (st st' : loop_state) :
  Server.feeds_loop e directory infos st = Done st' ->
  bound st' = bound st ++ map Address infos /\
  launched st' = launched st ++ map Name infos /\
  muxMap st' =
    fold_left (fun acc info => <[Name info := feed_muxer directory (Name info)]> acc)
              infos (muxMap st).
Proof.
  revert st. induction infos as [|info infos IH]; intros st; simpl.
  - intros [= <-]. now rewrite !app_nil_r.
  - destruct (listen_packet e (bound st) (Address info)); [|discriminate].
    intros H. apply IH in H as (H1 & H2 & H3). simpl in *.
    rewrite H1, H2, H3, <- !app_assoc. repeat split.
Qed.

Lemma Multi_feeds_loop_done (e : Env) (infos : list UDPAddressInfo)
    (st st' : loop_state) :
  Multi.feeds_loop e infos st = Done st' ->
  bound st' = bound st ++ map Address infos /\
  launched st' = launched st ++ map Name infos /\
  muxMap st' = muxMap st.
Proof.
  revert st. induction infos as [|info infos IH]; intros st; simpl.
  - intros [= <-]. now rewrite !app_nil_r.
  - destruct (listen_packet e (bound st) (Address info)); [|discriminate].
    intros H. apply IH in H as (H1 & H2 & H3). simpl in *.
    rewrite H1, H2, H3, <- !app_assoc. repeat split.
Qed.

Lemma Server_feeds_loop_panic (e : Env) (directory : string)
    (infos : list UDPAddressInfo) (st : loop_state) :
  Server.feeds_loop e directory infos st = Panic <->
  exists i info, infos !! i = Some info /\
    listen_packet e (bound st ++ map Address (take i infos)) (Address info) = false.
Proof.
  revert st. induction infos as [|info infos IH]; intros st; simpl.
  - split; [discriminate|]. intros (i & x & H & _). now rewrite lookup_nil in H.
  - destruct (listen_packet e (bound st) (Address info)) eqn:E.
    + rewrite IH. simpl. split.
      * intros (i & x & Hi & Hl). exists (S i), x. split; [exact Hi|].
        simpl. now rewrite <- app_assoc in Hl.
      * intros (i & x & Hi & Hl). destruct i as [|i].
        -- simpl in *. injection Hi as <-. rewrite app_nil_r in Hl. congruence.
        -- exists i, x. split; [exact Hi|]. simpl in Hl. now rewrite <- app_assoc.
    + split; [|reflexivity]. intros _. exists O, info. split; [reflexivity|].
      simpl. now rewrite app_nil_r.
Qed.

Lemma Multi_feeds_loop_panic (e : Env) (infos : list UDPAddressInfo) (st : loop_state) :
  Multi.feeds_loop e infos st = Panic <->
  exists i info, infos !! i = Some info /\
    listen_packet e (bound st ++ map Address (take i infos)) (Address info) = false.
Proof.
  revert st. induction infos as [|info infos IH]; intros st; simpl.
  - split; [discriminate|]. intros (i & x & H & _). now rewrite lookup_nil in H.
  - destruct (listen_packet e (bound st) (Address info)) eqn:E.
    + rewrite IH. simpl. split.
      * intros (i & x & Hi & Hl). exists (S i), x. split; [exact Hi|].
        simpl. now rewrite <- app_assoc in Hl.
      * intros (i & x & Hi & Hl). destruct i as [|i].
        -- simpl in *. injection Hi as <-. rewrite app_nil_r in Hl. congruence.
        -- exists i, x. split; [exact Hi|]. simpl in Hl. now rewrite <- app_assoc.
    + split; [|reflexivity]. intros _. exists O, info. split; [reflexivity|].
      simpl. now rewrite app_nil_r.
Qed.

(** X8: when start-up panics.  [main] of the two multi-feed programs panics
    before it generates the manifest exactly when the muxer of [main] does
    not start or the socket of some parsed descriptor cannot be bound once
    the addresses of the descriptors before it are bound; names, resolutions
    and bandwidths play no part. *)
Theorem startup_panics_iff (e : Env) (g directory udps : string) :
  (Server.main e g directory udps = Panic <->
   mux_start e = false \/
   exists i info, result (parseUDPAddresses udps) !! i = Some info /\
     listen_packet e (map Address (take i (result (parseUDPAddresses udps))))
       (Address info) = false) /\
  (Multi.main e directory udps = Panic <->
   mux_start e = false \/
   exists i info, result (parseUDPAddresses udps) !! i = Some info /\
     listen_packet e (map Address (take i (result (parseUDPAddresses udps))))
       (Address info) = false).
Proof.
  split.
  - unfold Server.main. destruct (mux_start e).
    + pose proof (Server_feeds_loop_panic e directory (result (parseUDPAddresses udps))
                    {| m3u8String := EmptyString; bound := []; launched := []; muxMap := ∅ |})
        as HP.
      simpl in HP. rewrite <- HP.
      destruct (Server.feeds_loop e directory _ _).
      * split; [discriminate|]. intros [H|H]; discriminate.
      * split; [intros _; now right|reflexivity].
    + split; [intros _; now left|reflexivity].
  - unfold Multi.main. destruct (mux_start e).
    + pose proof (Multi_feeds_loop_panic e (result (parseUDPAddresses udps))
                    {| m3u8String := EmptyString; bound := []; launched := []; muxMap := ∅ |})
        as HP.
      simpl in HP. rewrite <- HP.
      destruct (Multi.feeds_loop e _ _).
      * split; [discriminate|]. intros [H|H]; discriminate.
      * split; [intros _; now right|reflexivity].
    + split; [intros _; now left|reflexivity].
Qed.

(** X9: one socket and one goroutine for each parsed descriptor.  When the
    loop of [main] runs to its end, the addresses bound and the names handed
    to the launched goroutines are those of the descriptors, all of them and
    in their order: a descriptor whose resolution the manifest builder skips
    is bound and launched like the others, and so is one whose name or
    address occurred before. *)
Theorem startup_one_goroutine_per_descriptor (e : Env) (directory : string)
    (infos : list UDPAddressInfo) (st : loop_state) :
  (Server.feeds_loop e directory infos start_state = Done st ->
   bound st = map Address infos /\ launched st = map Name infos) /\
  (Multi.feeds_loop e infos start_state = Done st ->
   bound st = map Address infos /\ launched st = map Name infos /\ muxMap st = ∅).
Proof.
  split; intros H.
  - apply Server_feeds_loop_done in H as (H1 & H2 & _). now split.
  - apply Multi_feeds_loop_done in H as (H1 & H2 & H3). now repeat split.
Qed.

Lemma startup_one_goroutine_per_descriptor_witness :
  exists st,
    Server.feeds_loop all_ok "/tmp/hls"
      (result (parseUDPAddresses "a|A|640x360|200000,b|B|720|500000,a|A|1280x720|1000000"))
      start_state = Done st /\
    bound st = ["a"; "b"; "a"] /\ launched st = ["A"; "B"; "A"].
Proof.
  eexists. split; [reflexivity|].
  apply (proj1 (startup_one_goroutine_per_descriptor all_ok "/tmp/hls"
    (result (parseUDPAddresses "a|A|640x360|200000,b|B|720|500000,a|A|1280x720|1000000"))
    _)).
  reflexivity.
Defined.

(** X10: what the registry holds after start-up.  When [main] of the registry
    program reaches the manifest, a name is registered exactly when it is the
    name of a parsed descriptor, and its muxer has the directory of the flag,
    the segment count 999999 and the name as prefix; so the registry never
    has more entries than there are descriptors, and it has fewer when a name
    occurs twice. *)
Theorem startup_registry (e : Env) (g directory udps m : string)
    (reg : gmap string Muxer) :
  Server.main e g directory udps = Done (m, reg) ->
  (forall name,
     reg !! name =
     if decide (name ∈ map Name (result (parseUDPAddresses udps)))
     then Some {| Directory := directory; SegmentCount := 999999; Prefix := name |}
     else None) /\
  (size reg <= length (result (parseUDPAddresses udps)))%nat /\
  (size reg = length (result (parseUDPAddresses udps)) <->
   NoDup (map Name (result (parseUDPAddresses udps)))).
Proof.
  unfold Server.main. destruct (mux_start e); [|discriminate].
  destruct (Server.feeds_loop e directory _ _) as [st|] eqn:E; [|discriminate].
  intros [= <- <-]. apply Server_feeds_loop_done in E as (_ & _ & Hreg).
  simpl in Hreg. set (infos := result (parseUDPAddresses udps)) in *.
  assert (Hlook : forall name,
    muxMap st !! name =
    if decide (name ∈ map Name infos) then Some (feed_muxer directory name) else None).
  { intros name. rewrite Hreg, registry_fold_lookup. now rewrite lookup_empty. }
  assert (Hdom : dom (muxMap st) = list_to_set (map Name infos)).
  { apply set_eq. intros name. rewrite elem_of_dom, elem_of_list_to_set, Hlook.
    destruct (decide (name ∈ map Name infos)) as [Hin|Hin].
    - split; [intros _; exact Hin|intros _; eexists; reflexivity].
    - split; [intros [x Hx]; discriminate Hx|intros Hin'; contradiction]. }
  assert (Hsize : size (muxMap st) = length (remove_dups (map Name infos))).
  { rewrite <- size_dom, Hdom.
    rewrite <- (size_list_to_set (C := gset string) (remove_dups (map Name infos)))
      by apply NoDup_remove_dups.
    f_equal. apply set_eq. intros name.
    now rewrite !elem_of_list_to_set, elem_of_remove_dups. }
  split; [exact Hlook|].
  rewrite Hsize. rewrite <- (length_map Name infos).
  split; [apply remove_dups_length_le|apply remove_dups_length_eq].
Qed.

Lemma startup_registry_witness :
  two_variants_in "/tmp/a" !! "B" =
    (if decide ("B" ∈ map Name (result (parseUDPAddresses two_feeds)))
     then Some {| Directory := "/tmp/a"; SegmentCount := 999999; Prefix := "B" |}
     else None).
Proof.
  apply (proj1 (startup_registry all_ok "old text" "/tmp/a" two_feeds
    (header +:+ blocks_of "stream_" (result (parseUDPAddresses two_feeds)))
    (two_variants_in "/tmp/a") eq_refl)).
Defined.

(** ** The HTTP handler over any registry *)

Lemma range_muxMap_cases (order : list (string * Muxer)) (path : string) :
  (exists name mux, (name, mux) ∈ order /\ Contains path name = true /\
     Server.range_muxMap order path = Server.MuxHandle mux) \/
  ((forall name mux, (name, mux) ∈ order -> Contains path name = false) /\
   Server.range_muxMap order path = Server.NotFound).
Proof.
  induction order as [|[n m] order IH]; simpl.
  - right. split; [|reflexivity]. intros name mux H. now apply elem_of_nil in H.
  - destruct (Contains path n) eqn:E.
    + left. exists n, m. split; [apply list_elem_of_here|]. split; [exact E|reflexivity].
    + destruct IH as [(name & mux & Hin & Hc & Hr)|[Hnone Hr]].
      * left. exists name, mux. split; [now apply list_elem_of_further|]. now split.
      * right. split; [|exact Hr]. intros name mux Hin.
        apply elem_of_cons in Hin as [Heq|Hin]; [|now apply (Hnone name mux)].
        injection Heq as -> ->. exact E.
Qed.

Lemma visits_elem (reg : gmap string Muxer) (order : list (string * Muxer))
    (name : string) (mux : Muxer) :
  Server.visits reg order -> (name, mux) ∈ order <-> reg !! name = Some mux.
Proof.
  unfold Server.visits. intros Hp. rewrite Hp. apply elem_of_map_to_list.
Qed.

Lemma handler_other_path (m3u8 index : string) (order : list (string * Muxer))
    (path : string) :
  path <> "/" -> path <> "/video.m3u8" ->
  Server.handleM3u8Urls m3u8 index order path = Server.range_muxMap order path.
Proof.
  intros H1 H2. unfold Server.handleM3u8Urls.
  apply String.eqb_neq in H1, H2. now rewrite H1, H2.
Qed.

(** X11: what the handler answers on the other paths.  For every registry,
    every order in which it is visited and every path other than ["/"] and
    ["/video.m3u8"]: the handler writes no response of its own; a request it
    hands to a muxer goes to a registered muxer whose name occurs in the
    path; and it answers not-found exactly when no registered name occurs in
    the path. *)
Theorem handler_sound_complete (reg : gmap string Muxer) (m3u8 index : string)
    (order : list (string * Muxer)) (path : string) :
  Server.visits reg order -> path <> "/" -> path <> "/video.m3u8" ->
  (forall contentType status body,
     Server.handleM3u8Urls m3u8 index order path <>
     Server.Respond contentType status body) /\
  (forall mux, Server.handleM3u8Urls m3u8 index order path = Server.MuxHandle mux ->
     exists name, reg !! name = Some mux /\ Contains path name = true) /\
  (Server.handleM3u8Urls m3u8 index order path = Server.NotFound <->
   forall name mux, reg !! name = Some mux -> Contains path name = false).
Proof.
  intros Hv H1 H2. rewrite (handler_other_path m3u8 index order path H1 H2).
  destruct (range_muxMap_cases order path) as [(n & m & Hin & Hc & Hr)|[Hnone Hr]];
    rewrite Hr.
  - split; [intros ct st b H; discriminate H|]. split.
    + intros mux [= <-]. exists n. split; [|exact Hc].
      apply (visits_elem reg order n m Hv). exact Hin.
    + split; [intros H; discriminate H|].
      intros Hall. apply (visits_elem reg order n m Hv) in Hin.
      rewrite (Hall n m Hin) in Hc. discriminate Hc.
  - split; [intros ct st b H; discriminate H|]. split.
    + intros mux H. discriminate H.
    + split; [|reflexivity]. intros _ name mux Hreg.
      apply (Hnone name mux). apply (visits_elem reg order name mux Hv). exact Hreg.
Qed.

Lemma two_variants_visited :
  Server.visits (two_variants mux480 mux720) [("480p", mux480); ("720p", mux720)].
Proof.
  unfold Server.visits, two_variants, Server.register.
  rewrite map_to_list_insert by reflexivity.
  rewrite map_to_list_insert by reflexivity.
  rewrite map_to_list_empty. apply Permutation_swap.
Qed.

Lemma handler_sound_complete_witness :
  Server.handleM3u8Urls "manifest" "index" [("480p", mux480); ("720p", mux720)]
    "/index.html" = Server.NotFound <->
  forall name mux, two_variants mux480 mux720 !! name = Some mux ->
    Contains "/index.html" name = false.
Proof.
  apply (proj2 (proj2 (handler_sound_complete (two_variants mux480 mux720)
    "manifest" "index" [("480p", mux480); ("720p", mux720)] "/index.html"
    two_variants_visited ltac:(discriminate) ltac:(discriminate)))).
Defined.

(** X12: when the order of the visit does not matter.  If all registered
    names that occur in the path belong to one muxer (in particular if at
    most one registered name occurs in it), the handler gives the same
    answer for every order in which the registry is visited. *)
Theorem handler_order_independent (reg : gmap string Muxer) (m3u8 index : string)
    (order1 order2 : list (string * Muxer)) (path : string) :
  Server.visits reg order1 -> Server.visits reg order2 ->
  (forall name1 name2 mux1 mux2,
     reg !! name1 = Some mux1 -> reg !! name2 = Some mux2 ->
     Contains path name1 = true -> Contains path name2 = true -> mux1 = mux2) ->
  Server.handleM3u8Urls m3u8 index order1 path =
  Server.handleM3u8Urls m3u8 index order2 path.
Proof.
  intros Hv1 Hv2 Hone. unfold Server.handleM3u8Urls.
  destruct (String.eqb path "/video.m3u8"); [reflexivity|].
  destruct (String.eqb path "/"); [reflexivity|].
  destruct (range_muxMap_cases order1 path) as [(n & m & Hin & Hc & Hr)|[Hnone Hr]];
    rewrite Hr; symmetry.
  - apply (visits_elem reg order1 n m Hv1) in Hin.
    apply (range_muxMap_only order2 path n m).
    + apply (visits_elem reg order2 n m Hv2). exact Hin.
    + exact Hc.
    + intros n' m' Hin' Hc'. apply (visits_elem reg order2 n' m' Hv2) in Hin'.
      exact (Hone n' n m' m Hin' Hin Hc' Hc).
  - apply range_muxMap_none. intros n m Hin.
    apply (visits_elem reg order2 n m Hv2) in Hin.
    apply (visits_elem reg order1 n m Hv1) in Hin.
    exact (Hnone n m Hin).
Qed.

Lemma two_variants_visited_back :
  Server.visits (two_variants mux480 mux720) [("720p", mux720); ("480p", mux480)].
Proof.
  unfold Server.visits, two_variants, Server.register.
  rewrite map_to_list_insert by reflexivity.
  rewrite map_to_list_insert by reflexivity.
  rewrite map_to_list_empty. reflexivity.
Qed.

Lemma handler_order_independent_witness :
  Server.handleM3u8Urls "manifest" "index" [("480p", mux480); ("720p", mux720)]
    "/720p/seg1.mp4" =
  Server.handleM3u8Urls "manifest" "index" [("720p", mux720); ("480p", mux480)]
    "/720p/seg1.mp4".
Proof.
  apply (handler_order_independent (two_variants mux480 mux720) "manifest" "index"
           _ _ "/720p/seg1.mp4" two_variants_visited two_variants_visited_back).
  intros name1 name2 mux1 mux2 H1 H2 C1 C2.
  assert (Hname : forall name mux, two_variants mux480 mux720 !! name = Some mux ->
            Contains "/720p/seg1.mp4" name = true -> mux = mux720).
  { clear. intros name mux H C.
    apply (visits_elem _ _ name mux two_variants_visited) in H.
    apply elem_of_cons in H as [H|H].
    - injection H as -> ->. discriminate C.
    - apply elem_of_cons in H as [H|H]; [now injection H|].
      apply elem_of_nil in H. contradiction. }
  rewrite (Hname name1 mux1 H1 C1), (Hname name2 mux2 H2 C2). reflexivity.
Defined.

Lemma Contains_empty (s : string) : Contains s EmptyString = true.
Proof. destruct s; reflexivity. Qed.

(** X13: a variant registered under the empty name takes every other
    request.  The parser accepts an empty name, and the empty string occurs
    in every path: once a muxer is registered under it, no path but ["/"]
    and ["/video.m3u8"] is answered not-found, whatever the order of the
    visit. *)
Theorem handler_empty_name_catches_all (reg : gmap string Muxer) (m3u8 index : string)
    (order : list (string * Muxer)) (path : string) (mux0 : Muxer) :
  Server.visits reg order -> reg !! EmptyString = Some mux0 ->
  path <> "/" -> path <> "/video.m3u8" ->
  exists mux, Server.handleM3u8Urls m3u8 index order path = Server.MuxHandle mux.
Proof.
  intros Hv H0 H1 H2. rewrite (handler_other_path m3u8 index order path H1 H2).
  destruct (range_muxMap_cases order path) as [(n & m & _ & _ & Hr)|[Hnone _]].
  - exists m. exact Hr.
  - apply (visits_elem reg order EmptyString mux0 Hv) in H0.
    pose proof (Hnone EmptyString mux0 H0) as Hc.
    rewrite Contains_empty in Hc. discriminate Hc.
Qed.

Lemma handler_empty_name_catches_all_witness :
  exists mux, Server.handleM3u8Urls "manifest" "index"
                [(EmptyString, mux480)] "/favicon.ico" = Server.MuxHandle mux.
Proof.
  apply (handler_empty_name_catches_all (<[EmptyString := mux480]> ∅) "manifest" "index"
           [(EmptyString, mux480)] "/favicon.ico" mux480).
  - unfold Server.visits. rewrite map_to_list_insert by reflexivity.
    rewrite map_to_list_empty. reflexivity.
  - reflexivity.
  - discriminate.
  - discriminate.
Defined.

(** ** Set-up of a feed's reader *)

Lemma visit_tracks_spec (i : nat) (trs : list codec) (found : bool)
    (cbs : list callback) :
  visit_tracks i trs found cbs =
  (found || existsb is_h264 trs, cbs ++ callbacks_of i trs).
Proof.
  revert i found cbs. induction trs as [|c trs IH]; intros i found cbs; simpl.
  - now rewrite orb_false_r, app_nil_r.
  - destruct c; rewrite IH; simpl; rewrite <- ?app_assoc; simpl;
      rewrite ?orb_true_r; reflexivity.
Qed.

Lemma visit_tracks_break_spec (i : nat) (trs : list codec) (found : bool)
    (cbs : list callback) :
  visit_tracks_break i trs found cbs =
  (found || existsb is_h264 trs,
   cbs ++ match first_h264 i trs with
          | Some k => [OnDataH26x k]
          | None => []
          end).
Proof.
  revert i. induction trs as [|c trs IH]; intros i; simpl.
  - now rewrite orb_false_r, app_nil_r.
  - destruct c; simpl; rewrite ?orb_true_r; try reflexivity; apply IH.
Qed.

Lemma existsb_is_h264 (trs : list codec) :
  existsb is_h264 trs = true <-> CodecH264 ∈ trs.
Proof.
  induction trs as [|c trs IH]; simpl.
  - split; [discriminate|]. intros H. now apply elem_of_nil in H.
  - rewrite elem_of_cons, orb_true_iff, IH.
    destruct c; simpl; split; intros [H|H]; auto; discriminate.
Qed.

Lemma callbacks_of_video (i k : nat) (trs : list codec) :
  OnDataH26x k ∈ callbacks_of i trs <->
  exists j, k = (i + j)%nat /\ trs !! j = Some CodecH264.
Proof.
  revert i. induction trs as [|c trs IH]; intros i; simpl.
  - split; [intros H; now apply elem_of_nil in H|]. intros (j & _ & H).
    now rewrite lookup_nil in H.
  - assert (Hrest : OnDataH26x k ∈ callbacks_of (S i) trs <->
                    exists j, k = (i + S j)%nat /\ trs !! j = Some CodecH264).
    { rewrite IH. split; intros (j & Hk & Hj); exists j; split; auto; lia. }
    destruct c; rewrite ?elem_of_cons, Hrest.
    + split.
      * intros [[= ->]|(j & Hk & Hj)]; [exists O; split; [lia|reflexivity]|].
        exists (S j). now split.
      * intros ([|j] & Hk & Hj); [left; f_equal; lia|right; exists j; now split].
    + split.
      * intros [H|(j & Hk & Hj)]; [discriminate H|]. exists (S j). now split.
      * intros ([|j] & Hk & Hj); [discriminate Hj|right; exists j; now split].
    + split.
      * intros (j & Hk & Hj). exists (S j). now split.
      * intros ([|j] & Hk & Hj); [discriminate Hj|exists j; now split].
Qed.

Lemma callbacks_of_audio (i k : nat) (trs : list codec) :
  OnDataMPEG4Audio k ∈ callbacks_of i trs <->
  exists j, k = (i + j)%nat /\ trs !! j = Some CodecMPEG4Audio.
Proof.
  revert i. induction trs as [|c trs IH]; intros i; simpl.
  - split; [intros H; now apply elem_of_nil in H|]. intros (j & _ & H).
    now rewrite lookup_nil in H.
  - assert (Hrest : OnDataMPEG4Audio k ∈ callbacks_of (S i) trs <->
                    exists j, k = (i + S j)%nat /\ trs !! j = Some CodecMPEG4Audio).
    { rewrite IH. split; intros (j & Hk & Hj); exists j; split; auto; lia. }
    destruct c; rewrite ?elem_of_cons, Hrest.
    + split.
      * intros [H|(j & Hk & Hj)]; [discriminate H|]. exists (S j). now split.
      * intros ([|j] & Hk & Hj); [discriminate Hj|right; exists j; now split].
    + split.
      * intros [[= ->]|(j & Hk & Hj)]; [exists O; split; [lia|reflexivity]|].
        exists (S j). now split.
      * intros ([|j] & Hk & Hj); [left; f_equal; lia|right; exists j; now split].
    + split.
      * intros (j & Hk & Hj). exists (S j). now split.
      * intros ([|j] & Hk & Hj); [discriminate Hj|exists j; now split].
Qed.

Lemma callbacks_of_NoDup (i : nat) (trs : list codec) :
  NoDup (callbacks_of i trs).
Proof.
  revert i. induction trs as [|c trs IH]; intros i; simpl; [constructor|].
  destruct c; [| |apply IH]; apply NoDup_cons; (split; [|apply IH]).
  - rewrite callbacks_of_video. intros (j & Hk & _). lia.
  - rewrite callbacks_of_audio. intros (j & Hk & _). lia.
Qed.

(** X14: how the set-up of a feed ends in the two multi-feed programs.
    [setupMPEGTSReader] panics with an error when the muxer does not start
    or the reader cannot be created; it panics with [H264 track not found]
    when both succeed and no track is H264, also when there is audio; and
    otherwise it enters the read loop with the list of callbacks that holds,
    in the order of the tracks, one video callback for each H264 track and
    one audio callback for each MPEG-4 audio track: no callback occurs
    twice, and none is registered for another track.  The two programs
    agree. *)
Theorem setup_outcome (fe : feed_env) :
  (Multi.setupMPEGTSReader fe = PanicErr <->
   start_ok fe = false \/ reader_ok fe = false) /\
  (Multi.setupMPEGTSReader fe = PanicNoH264 <->
   start_ok fe = true /\ reader_ok fe = true /\ CodecH264 ∉ tracks fe) /\
  (forall cbs, Multi.setupMPEGTSReader fe = Ingesting cbs <->
     start_ok fe = true /\ reader_ok fe = true /\ CodecH264 ∈ tracks fe /\
     cbs = callbacks_of 0 (tracks fe)) /\
  NoDup (callbacks_of 0 (tracks fe)) /\
  (forall k, OnDataH26x k ∈ callbacks_of 0 (tracks fe) <->
             tracks fe !! k = Some CodecH264) /\
  (forall k, OnDataMPEG4Audio k ∈ callbacks_of 0 (tracks fe) <->
             tracks fe !! k = Some CodecMPEG4Audio) /\
  Server.setupMPEGTSReader fe = Multi.setupMPEGTSReader fe.
Proof.
  split; [|split; [|split; [|split; [|split; [|split]]]]].
  - unfold Multi.setupMPEGTSReader. rewrite visit_tracks_spec. simpl.
    destruct (start_ok fe), (reader_ok fe);
      try (split; [intros _; auto|reflexivity]).
    destruct (existsb is_h264 (tracks fe)); simpl;
      (split; [intros H; discriminate H|intros [H|H]; discriminate H]).
  - unfold Multi.setupMPEGTSReader. rewrite visit_tracks_spec. simpl.
    pose proof (existsb_is_h264 (tracks fe)) as Hh.
    destruct (start_ok fe), (reader_ok fe);
      try (split; [intros H; discriminate H|intros (H1 & H2 & _); discriminate]).
    destruct (existsb is_h264 (tracks fe)); simpl.
    + split; [intros H; discriminate H|].
      intros (_ & _ & Hn). exfalso. apply Hn, Hh. reflexivity.
    + split; [intros _|reflexivity].
      split; [reflexivity|split; [reflexivity|]]. intros Hin.
      apply Hh in Hin. discriminate Hin.
  - intros cbs. unfold Multi.setupMPEGTSReader. rewrite visit_tracks_spec. simpl.
    pose proof (existsb_is_h264 (tracks fe)) as Hh.
    destruct (start_ok fe), (reader_ok fe);
      try (split; [intros H; discriminate H|intros (H1 & H2 & _); discriminate]).
    destruct (existsb is_h264 (tracks fe)); simpl.
    + split.
      * intros [= <-]. split; [reflexivity|split; [reflexivity|]].
        split; [apply Hh; reflexivity|reflexivity].
      * intros (_ & _ & _ & ->). reflexivity.
    + split; [intros H; discriminate H|].
      intros (_ & _ & Hin & _). apply Hh in Hin. discriminate Hin.
  - apply callbacks_of_NoDup.
  - intros k. rewrite callbacks_of_video. split.
    + intros (j & -> & Hj). exact Hj.
    + intros Hk. exists k. now split.
  - intros k. rewrite callbacks_of_audio. split.
    + intros (j & -> & Hj). exact Hj.
    + intros Hk. exists k. now split.
  - reflexivity.
Qed.

Lemma setup_outcome_witness :
  Multi.setupMPEGTSReader
    {| start_ok := true; reader_ok := true;
       tracks := [CodecMPEG4Audio; CodecOther; CodecH264; CodecH264] |} =
  Ingesting [OnDataMPEG4Audio 0; OnDataH26x 2; OnDataH26x 3].
Proof.
  apply (proj1 (proj2 (proj2
    (setup_outcome {| start_ok := true; reader_ok := true;
                      tracks := [CodecMPEG4Audio; CodecOther; CodecH264; CodecH264] |})))
    [OnDataMPEG4Audio 0; OnDataH26x 2; OnDataH26x 3]).
  repeat split. apply list_elem_of_further, list_elem_of_further, list_elem_of_here.
Defined.

(** X15: the single-feed program never reports a missing H264 track.  Its
    test [if !found] stands behind the endless read loop, so when the muxer
    starts and the reader is created it enters the read loop whatever the
    tracks are: with the video callback of the first H264 track alone, or
    with no callback at all when there is none, where the multi-feed
    programs panic. *)
Theorem single_setup_dead_check (fe : feed_env) :
  Single.setupMPEGTSReader fe <> PanicNoH264 /\
  (start_ok fe = true -> reader_ok fe = true ->
   Single.setupMPEGTSReader fe =
     Ingesting match first_h264 0 (tracks fe) with
               | Some k => [OnDataH26x k]
               | None => []
               end) /\
  (start_ok fe = true -> reader_ok fe = true -> CodecH264 ∉ tracks fe ->
   Single.setupMPEGTSReader fe = Ingesting [] /\
   Multi.setupMPEGTSReader fe = PanicNoH264).
Proof.
  unfold Single.setupMPEGTSReader. rewrite visit_tracks_break_spec. simpl.
  split; [destruct (start_ok fe), (reader_ok fe); discriminate|].
  split.
  - intros -> ->. reflexivity.
  - intros Hs Hr Hn. split.
    + rewrite Hs, Hr. f_equal.
      assert (Hnone : forall i trs, CodecH264 ∉ trs -> first_h264 i trs = None).
      { clear. intros i trs. revert i. induction trs as [|c trs IH]; intros i H; [reflexivity|].
        apply not_elem_of_cons in H as [Hc Ht]. destruct c; simpl; [congruence| |]; now apply IH. }
      now rewrite (Hnone O (tracks fe) Hn).
    + unfold Multi.setupMPEGTSReader. rewrite visit_tracks_spec, Hs, Hr. simpl.
      destruct (existsb is_h264 (tracks fe)) eqn:E; [|reflexivity].
      apply existsb_is_h264 in E. contradiction.
Qed.

Lemma single_setup_dead_check_witness :
  Single.setupMPEGTSReader
    {| start_ok := true; reader_ok := true; tracks := [CodecMPEG4Audio] |} = Ingesting [] /\
  Multi.setupMPEGTSReader
    {| start_ok := true; reader_ok := true; tracks := [CodecMPEG4Audio] |} = PanicNoH264.
Proof.
  apply (proj2 (proj2 (single_setup_dead_check
    {| start_ok := true; reader_ok := true; tracks := [CodecMPEG4Audio] |}))
    eq_refl eq_refl).
  intros H. apply elem_of_cons in H as [H|H]; [discriminate H|].
  apply elem_of_nil in H. exact H.
Defined.

(** ** The read loops of several feeds *)

Lemma read_once_error_free (f : feed) :
  error_free f ->
  (pending f = [] /\ read_once f = Blocked) \/
  (exists ev rest td pts w,
     pending f = ev :: rest /\ ev <> ReadError /\
     onData (timeDec f) (raw_pts ev) = (td, pts) /\
     deliveries (timeDec f) [ev] = [w] /\
     read_once f =
       Continues {| timeDec := td; writes := writes f ++ [w]; pending := rest |}).
Proof.
  unfold error_free, read_once. intros Hf.
  destruct (pending f) as [|ev rest]; [left; now split|right].
  destruct ev as [r|r|].
  - destruct (onData (timeDec f) r) as [td pts] eqn:E.
    exists (VideoAU r), rest, td, pts, (WriteH26x pts).
    cbn [raw_pts deliveries]. rewrite E.
    split; [reflexivity|]. split; [discriminate|]. now repeat split.
  - destruct (onData (timeDec f) r) as [td pts] eqn:E.
    exists (AudioAU r), rest, td, pts, (WriteMPEG4Audio pts).
    cbn [raw_pts deliveries]. rewrite E.
    split; [reflexivity|]. split; [discriminate|]. now repeat split.
  - exfalso. apply Hf. apply list_elem_of_here.
Qed.

Lemma step_error_free (j : nat) (p : process) :
  exit_status p = None -> Forall error_free (feeds p) ->
  exit_status (step j p) = None /\
  Forall error_free (feeds (step j p)) /\
  length (feeds (step j p)) = length (feeds p) /\
  forall i, i <> j -> feeds (step j p) !! i = feeds p !! i.
Proof.
  intros He Hall. unfold step. rewrite He.
  destruct (feeds p !! j) as [f|] eqn:Ej; [|now repeat split].
  assert (Hf : error_free f).
  { rewrite Forall_forall in Hall. apply Hall. eapply list_elem_of_lookup_2, Ej. }
  destruct (read_once_error_free f Hf)
    as [[_ Hr]|(ev & rest & td & pts & w & Hp & _ & _ & _ & Hr)]; rewrite Hr.
  - now repeat split.
  - simpl. split; [reflexivity|]. split; [|split].
    + apply Forall_insert; [exact Hall|].
      unfold error_free in *. simpl. rewrite Hp in Hf.
      intros Hin. apply Hf. now apply list_elem_of_further.
    + apply length_insert.
    + intros i Hi. apply list_lookup_insert_ne. congruence.
Qed.

Lemma deliveries_cons (tdf : option TimeDecoder) (ev : read_event)
    (td : option TimeDecoder) (pts : Z) (w : mux_write) :
  ev <> ReadError -> onData tdf (raw_pts ev) = (td, pts) ->
  deliveries tdf [ev] = [w] ->
  (forall l, deliveries tdf (ev :: l) = w :: deliveries td l) /\
  (forall l, decoder_after tdf (ev :: l) = decoder_after td l).
Proof.
  intros Hev Hon Hw.
  destruct ev as [r|r|]; [| |congruence];
    cbn [deliveries decoder_after raw_pts] in *;
    rewrite Hon in *; cbn [fst]; injection Hw as <-; now split.
Qed.

Lemma deliveries_pts (td : option TimeDecoder) (evs : list read_event) :
  ReadError ∉ evs ->
  length (deliveries td evs) = length evs /\
  map write_pts (deliveries td evs) = decode_from td (map raw_pts evs).
Proof.
  revert td. induction evs as [|ev evs IH]; intros td Hn; [now split|].
  apply not_elem_of_cons in Hn as [Hev Hn].
  destruct ev as [r|r|]; [| |congruence];
    cbn [deliveries decode_from map raw_pts];
    destruct (onData td r) as [td' pts]; cbn [map write_pts length];
    destruct (IH td' Hn) as [H1 H2]; now rewrite H1, H2.
Qed.

Lemma turns_cons (i j : nat) (schedule : list nat) :
  turns i (j :: schedule) =
  if decide (j = i) then S (turns i schedule) else turns i schedule.
Proof.
  unfold turns. rewrite filter_cons. now destruct (decide (j = i)).
Qed.

(** X18: whatever the interleaving, a feed's access units reach its muxer in
    arrival order.  While no feed has a read error to come, after any
    schedule the writes of feed [i] are its earlier writes followed by one
    write for each of the first [k] access units it had to read, in their
    order and of their kind, where [k] is the number of turns of [i] in the
    schedule, at most the number of units; their PTS come from the feed's
    own decoder, shared by its video and audio callbacks, and do not depend
    on the other feeds. *)
Theorem feed_writes_in_arrival_order (schedule : list nat) (p : process)
    (i : nat) (f : feed) :
  exit_status p = None -> Forall error_free (feeds p) ->
  feeds p !! i = Some f ->
  feeds (run schedule p) !! i =
    Some {| timeDec := decoder_after (timeDec f)
              (take (Nat.min (turns i schedule) (length (pending f))) (pending f));
            writes := writes f ++
              deliveries (timeDec f)
                (take (Nat.min (turns i schedule) (length (pending f))) (pending f));
            pending := drop (Nat.min (turns i schedule) (length (pending f))) (pending f) |} /\
  (forall td evs, ReadError ∉ evs ->
     length (deliveries td evs) = length evs /\
     map write_pts (deliveries td evs) = decode_from td (map raw_pts evs)).
Proof.
  intros He Hall Hf. split; [|intros td evs; apply deliveries_pts].
  revert p f He Hall Hf.
  unfold run. induction schedule as [|j schedule IH]; intros p f He Hall Hf.
  - simpl. rewrite Hf. unfold turns. simpl. rewrite app_nil_r. now destruct f.
  - cbn [fold_left]. rewrite turns_cons.
    destruct (step_error_free j p He Hall) as (He' & Hall' & _ & Hframe).
    destruct (decide (j = i)) as [->|Hji].
    + assert (Hfe : error_free f).
      { rewrite Forall_forall in Hall. apply Hall. eapply list_elem_of_lookup_2, Hf. }
      destruct (read_once_error_free f Hfe)
        as [[Hp Hr]|(ev & rest & td & pts & w & Hp & Hev & Hon & Hw & Hr)].
      * assert (Hs : step i p = p) by (unfold step; now rewrite He, Hf, Hr).
        rewrite Hs. rewrite (IH p f He Hall Hf). rewrite Hp. simpl.
        now rewrite !Nat.min_0_r.
      * assert (Hs : feeds (step i p) !! i =
                  Some {| timeDec := td; writes := writes f ++ [w]; pending := rest |}).
        { unfold step. rewrite He, Hf, Hr. simpl.
          apply list_lookup_insert_eq. eapply lookup_lt_Some, Hf. }
        rewrite (IH (step i p) _ He' Hall' Hs). cbn [timeDec writes pending].
        rewrite Hp. cbn [length Nat.min take drop].
        destruct (deliveries_cons (timeDec f) ev td pts w Hev Hon Hw) as [Hd Ha].
        rewrite (Hd (take (Nat.min (turns i schedule) (length rest)) rest)).
        rewrite (Ha (take (Nat.min (turns i schedule) (length rest)) rest)).
        now rewrite <- app_assoc.
    + rewrite (IH (step j p) f He' Hall'); [reflexivity|].
      rewrite Hframe by congruence. exact Hf.
Qed.

Lemma feed_writes_in_arrival_order_witness :
  feeds (run [1; 0; 1; 1; 0]%nat
    {| feeds := [healthy_feed;
                 {| timeDec := None; writes := [];
                    pending := [AudioAU 500; VideoAU 3500; AudioAU 2300; VideoAU 6500] |}];
       exit_status := None |}) !! 1%nat =
  Some {| timeDec := Some {| prev := 2300; overall := 1800 |};
          writes := [WriteMPEG4Audio 0; WriteH26x 3000; WriteMPEG4Audio 1800];
          pending := [VideoAU 6500] |}.
Proof.
  apply (fun a b c => proj1 (feed_writes_in_arrival_order [1; 0; 1; 1; 0]%nat
    {| feeds := [healthy_feed;
                 {| timeDec := None; writes := [];
                    pending := [AudioAU 500; VideoAU 3500; AudioAU 2300; VideoAU 6500] |}];
       exit_status := None |} 1
    {| timeDec := None; writes := [];
       pending := [AudioAU 500; VideoAU 3500; AudioAU 2300; VideoAU 6500] |} a b c)).
  - reflexivity.
  - repeat constructor; unfold error_free; simpl; intros H;
      repeat (apply elem_of_cons in H as [H|H]; [discriminate H|]);
      apply elem_of_nil in H; exact H.
  - reflexivity.
Defined.
